(** * yalla: solvers for N-body problems (include/solvers.cuh)

    A shallow embedding of the CUDA solver header: the host/device mirror
    [Solution], the Euler/Heun integrator kernels, the tiled all-pairs
    evaluator [compute_tiles], and the sorting-based lattice
    ([compute_cube_ids], [compute_cube_start_and_end],
    [compute_lattice_pwints], [build_lattice]).

    Device buffers are lists, a kernel launch is a fold of the thread body
    over the grid, and every kernel is written once over an abstract scalar
    type.  Two scalar instances are given: IEEE binary32 (the [float] of
    the source, executable) and the real numbers (exact arithmetic, used
    for the statements that hold only up to rounding). *)

From Stdlib Require Import ZArith List Bool Lia Arith.
From Stdlib Require Import Reals Lra.
From Stdlib Require Import Floats.SpecFloat.
From Stdlib Require Import Sorting.Permutation Sorting.Sorted.
Import ListNotations.

(** ** Scalars *)

(** The operations the kernels use on [float] and on the [int] values they
    mix with it. *)
Class Scalar (F : Type) := {
  fzero : F;
  fadd : F -> F -> F;
  fsub : F -> F -> F;
  fmul : F -> F -> F;
  fdiv : F -> F -> F;
  fhalf : F;                       (* the literal 0.5 *)
  of_int : Z -> F;                 (* int -> float conversion *)
  fltb : F -> F -> bool;           (* a < b *)
  norm3df : F -> F -> F -> F;      (* CUDA intrinsic: sqrt(x*x + y*y + z*z) *)
  ffloor : F -> F;                 (* floor *)
  to_int : F -> option Z           (* static_cast<int>; None where C++ leaves it undefined *)
}.

Definition INT_MIN : Z := - 2 ^ 31.
Definition INT_MAX : Z := 2 ^ 31 - 1.

Definition in_int_range (k : Z) : bool := (INT_MIN <=? k)%Z && (k <=? INT_MAX)%Z.

(** *** IEEE binary32 *)

Module Binary32.

Definition prec : Z := 24.
Definition emax : Z := 128.

Definition add := SFadd prec emax.
Definition sub := SFsub prec emax.
Definition mul := SFmul prec emax.
Definition div := SFdiv prec emax.
Definition sqrt := SFsqrt prec emax.
Definition of_Z (k : Z) : spec_float := binary_normalize prec emax k 0 false.
Definition half : spec_float := S754_finite false 8388608 (-24).
Definition ltb := SFltb.

Definition norm3 (a b c : spec_float) : spec_float :=
  sqrt (add (add (mul a a) (mul b b)) (mul c c)).

(** [floor]: the largest integral value not above the argument. *)
Definition floor (a : spec_float) : spec_float :=
  match a with
  | S754_finite s m e =>
      if (0 <=? e)%Z then a
      else
        let q := Z.shiftr (Zpos m) (- e) in
        let exact := (Z.shiftl q (- e) =? Zpos m)%Z in
        let k := if s then (if exact then - q else - (q + 1))%Z else q in
        binary_normalize prec emax k 0 s
  | _ => a
  end.

(** [static_cast<int>]: truncation toward zero, undefined for NaN,
    infinities and values outside the range of [int]. *)
Definition to_Z (a : spec_float) : option Z :=
  match a with
  | S754_zero _ => Some 0%Z
  | S754_finite s m e =>
      let k := cond_Zopp s
                 (if (0 <=? e)%Z then Z.shiftl (Zpos m) e
                  else Z.shiftr (Zpos m) (- e)) in
      if in_int_range k then Some k else None
  | _ => None
  end.

Definition is_finite (a : spec_float) : bool :=
  match a with
  | S754_zero _ | S754_finite _ _ _ => true
  | _ => false
  end.

End Binary32.

#[export] Instance binary32 : Scalar spec_float := {|
  fzero := S754_zero false;
  fadd := Binary32.add;
  fsub := Binary32.sub;
  fmul := Binary32.mul;
  fdiv := Binary32.div;
  fhalf := Binary32.half;
  of_int := Binary32.of_Z;
  fltb := Binary32.ltb;
  norm3df := Binary32.norm3;
  ffloor := Binary32.floor;
  to_int := Binary32.to_Z
|}.

(** *** Exact arithmetic *)

Module Exact.

Definition ltb (a b : R) : bool := if Rlt_dec a b then true else false.

Definition norm3 (a b c : R) : R := sqrt (a * a + b * b + c * c).

Definition floor (a : R) : R := IZR (Zfloor a).

Definition to_Z (a : R) : option Z :=
  let k := if Rle_dec 0 a then Zfloor a else Zceil a in
  if in_int_range k then Some k else None.

End Exact.

(** Division by zero has no meaning in exact arithmetic ([Rdiv] returns an
    arbitrary total value there); statements about a zero divisor are made
    on [binary32]. *)
#[export] Instance exact : Scalar R := {|
  fzero := 0%R;
  fadd := Rplus;
  fsub := Rminus;
  fmul := Rmult;
  fdiv := Rdiv;
  fhalf := (1 / 2)%R;
  of_int := IZR;
  fltb := Exact.ltb;
  norm3df := Exact.norm3;
  ffloor := Exact.floor;
  to_int := Exact.to_Z
|}.

(** ** Point types *)

Section Points.

Context {F : Type} {SF : Scalar F}.

(** [float3]: the previous velocities [d_old_v] and their neighbourhood
    sums [d_sum_v]. *)
Record float3 : Type := mkfloat3 { vx : F; vy : F; vz : F }.

(** [Pt]: the variables to be integrated.  Every point type of the
    repository ([float3], [float4], the [MAKE_PT] structs) has the three
    positional members x, y, z followed by further float members; [aux]
    holds the latter in declaration order. *)
Record Pt : Type := mkPt { px : F; py : F; pz : F; aux : list F }.

Fixpoint zip_with (f : F -> F -> F) (l1 l2 : list F) : list F :=
  match l1, l2 with
  | a :: l1', b :: l2' => f a b :: zip_with f l1' l2'
  | _, _ => []
  end.

(** Modelled from the spec: the operators of the point types live in
    dtypes.cuh, which is not part of the sources at hand; the spec asks
    for component-wise arithmetic over all fields. *)
Definition pt_zero (dim : nat) : Pt :=
  mkPt fzero fzero fzero (repeat fzero dim).

Definition pt_add (p q : Pt) : Pt :=
  mkPt (fadd (px p) (px q)) (fadd (py p) (py q)) (fadd (pz p) (pz q))
       (zip_with fadd (aux p) (aux q)).

Definition pt_sub (p q : Pt) : Pt :=
  mkPt (fsub (px p) (px q)) (fsub (py p) (py q)) (fsub (pz p) (pz q))
       (zip_with fsub (aux p) (aux q)).

Definition pt_scale (p : Pt) (s : F) : Pt :=
  mkPt (fmul (px p) s) (fmul (py p) s) (fmul (pz p) s)
       (map (fun a => fmul a s) (aux p)).

Definition pt_div (p : Pt) (s : F) : Pt :=
  mkPt (fdiv (px p) s) (fdiv (py p) s) (fdiv (pz p) s)
       (map (fun a => fdiv a s) (aux p)).

Definition set_px (p : Pt) (v : F) : Pt := mkPt v (py p) (pz p) (aux p).
Definition set_py (p : Pt) (v : F) : Pt := mkPt (px p) v (pz p) (aux p).
Definition set_pz (p : Pt) (v : F) : Pt := mkPt (px p) (py p) v (aux p).

Definition f3_zero : float3 := mkfloat3 fzero fzero fzero.

Definition f3_add (a b : float3) : float3 :=
  mkfloat3 (fadd (vx a) (vx b)) (fadd (vy a) (vy b)) (fadd (vz a) (vz b)).

End Points.

Arguments float3 F : clear implicits.
Arguments Pt F : clear implicits.

(** ** Device buffers and kernel launches *)

Section Buffers.

Context {A : Type}.

(** [l[i] = v].  The kernels only index below the live count, which
    never exceeds the capacity of a buffer. *)
Fixpoint upd (l : list A) (i : nat) (v : A) : list A :=
  match l, i with
  | [], _ => []
  | _ :: l', O => v :: l'
  | a :: l', S i' => a :: upd l' i' v
  end.

(** [thrust::fill(first, first + n, v)]. *)
Definition fill (l : list A) (n : nat) (v : A) : list A :=
  repeat v (Nat.min n (length l)) ++ skipn n l.

(** [cudaMemcpy] of [count] elements from [src] to [dst]. *)
Definition memcpy (dst src : list A) (count : nat) : list A :=
  firstn count src ++ skipn count dst.

End Buffers.

(** A launch [kernel<<<gridDim, blockDim>>>]: the blocks run one after the
    other and, inside a block, the threads in the order of [threadIdx].
    Every kernel of this file writes only locations owned by its own
    thread, so the order is immaterial. *)
Definition launch {S : Type} (gridDim blockDim : nat)
    (kernel : nat -> nat -> S -> S) (s : S) : S :=
  fold_left
    (fun s blockIdx =>
       fold_left (fun s threadIdx => kernel blockIdx threadIdx s)
                 (seq 0 blockDim) s)
    (seq 0 gridDim) s.

(** [(n + 32 - 1)/32], the ceiling of [n/32]. *)
Definition blocks (n : nat) : nat := (n + 32 - 1) / 32.

(** Reading a buffer.  An index at or beyond the end of a buffer is
    undefined behaviour in the source; the default stands for it and no
    statement below depends on it. *)
Class Default (A : Type) := dflt : A.

#[export] Instance Default_Z : Default Z := 0%Z.
#[export] Instance Default_nat : Default nat := 0.
#[export] Instance Default_scalar {F} {SF : Scalar F} : Default F := @fzero F SF.
#[export] Instance Default_float3 {F} {SF : Scalar F} : Default (float3 F) := f3_zero.
#[export] Instance Default_Pt {F} {SF : Scalar F} : Default (Pt F) := pt_zero 0.

Definition rd {A} {D : Default A} (l : list A) (i : nat) : A := nth i l dflt.

Notation "l .[ i ]" := (rd l i) (at level 1, left associativity, format "l .[ i ]").

(** ** The N2n solver *)

Section Solver.

Context {F : Type} {SF : Scalar F}.

(** Number of members of [Pt] after x, y and z. *)
Variable dim : nat.

(** [Pairwise_interaction<Pt>]: [Pt (Pt Xi, Pt r, float dist, int i, int j)]. *)
Definition Pairwise_interaction : Type := Pt F -> Pt F -> F -> nat -> nat -> Pt F.

(** [Generic_forces<Pt>]: [void (const Pt* d_X, Pt* d_dX)]; the function
    returns the contents of [d_dX] after the call. *)
Definition Generic_forces : Type := list (Pt F) -> list (Pt F) -> list (Pt F).

Definition no_gen_forces : Generic_forces := fun _ d_dX => d_dX.

(** *** Integrator kernels (one thread per point, [i] its global index) *)

(** The kernels receive the live count as [n_cells : nat]: it is an [int]
    in the source, non-negative at every call. *)

(** The three statements [d_dX[i].x -= m.x; d_dX[i].y -= m.y; d_dX[i].z -= m.z]. *)
Definition sub_mean (d_dX : list (Pt F)) (i : nat) (m : Pt F) : list (Pt F) :=
  let d_dX := upd d_dX i (set_px d_dX.[i] (fsub (px d_dX.[i]) (px m))) in
  let d_dX := upd d_dX i (set_py d_dX.[i] (fsub (py d_dX.[i]) (py m))) in
  upd d_dX i (set_pz d_dX.[i] (fsub (pz d_dX.[i]) (pz m))).

Definition euler_step (n_cells : nat) (dt : F) (d_X0 : list (Pt F))
    (mean_dX : Pt F) (i : nat) (st : list (Pt F) * list (Pt F))
    : list (Pt F) * list (Pt F) :=
  let '(d_dX, d_X) := st in
  if n_cells <=? i then st
  else
    let d_dX := sub_mean d_dX i mean_dX in
    let d_X := upd d_X i (pt_add d_X0.[i] (pt_scale d_dX.[i] dt)) in
    (d_dX, d_X).

Definition heun_step (n_cells : nat) (dt : F) (d_dX : list (Pt F))
    (mean_dX1 : Pt F) (i : nat)
    (st : list (Pt F) * list (Pt F) * list (float3 F))
    : list (Pt F) * list (Pt F) * list (float3 F) :=
  let '(d_dX1, d_X, d_old_v) := st in
  if n_cells <=? i then st
  else
    let d_dX1 := sub_mean d_dX1 i mean_dX1 in
    let d_X :=
      upd d_X i
        (pt_add d_X.[i] (pt_scale (pt_scale (pt_add d_dX.[i] d_dX1.[i]) fhalf) dt)) in
    let d_old_v :=
      upd d_old_v i
        (mkfloat3 (fmul (fadd (px d_dX.[i]) (px d_dX1.[i])) fhalf)
                  (vy d_old_v.[i]) (vz d_old_v.[i])) in
    let d_old_v :=
      upd d_old_v i
        (mkfloat3 (vx d_old_v.[i])
                  (fmul (fadd (py d_dX.[i]) (py d_dX1.[i])) fhalf)
                  (vz d_old_v.[i])) in
    let d_old_v :=
      upd d_old_v i
        (mkfloat3 (vx d_old_v.[i]) (vy d_old_v.[i])
                  (fmul (fadd (pz d_dX.[i]) (pz d_dX1.[i])) fhalf)) in
    (d_dX1, d_X, d_old_v).

(** The two debugging assertions of [add_rhs] (NaN tests through the
    [D_ASSERT] macro of cudebug.cuh) do not change any buffer. *)
Definition add_rhs (n_cells : nat) (d_sum_v : list (float3 F))
    (d_nNBs : list Z) (i : nat) (d_dX : list (Pt F)) : list (Pt F) :=
  if n_cells <=? i then d_dX
  else
    let d_dX :=
      upd d_dX i (set_px d_dX.[i]
        (fadd (px d_dX.[i]) (fdiv (vx d_sum_v.[i]) (of_int d_nNBs.[i])))) in
    let d_dX :=
      upd d_dX i (set_py d_dX.[i]
        (fadd (py d_dX.[i]) (fdiv (vy d_sum_v.[i]) (of_int d_nNBs.[i])))) in
    upd d_dX i (set_pz d_dX.[i]
      (fadd (pz d_dX.[i]) (fdiv (vz d_sum_v.[i]) (of_int d_nNBs.[i])))).

(** *** The tiled all-pairs evaluator *)

Definition TILE_SIZE : nat := 32.

Variable pw_int : Pairwise_interaction.

(** State of one block of [compute_tiles]: the shared tile [shX], the
    register [Fi] of each of its threads, and the two global
    accumulators. *)
Record tile_state : Type := mktile_state {
  shX : list (Pt F);
  Fi : list (Pt F);
  t_sum_v : list (float3 F);
  t_nNBs : list Z
}.

(** [if (j < n_cells) shX[threadIdx.x] = d_X[j]] with
    [j = tile_start + threadIdx.x]. *)
Definition load_tile (n_cells : nat) (d_X : list (Pt F)) (tile_start : nat)
    (threadIdx : nat) (sh : list (Pt F)) : list (Pt F) :=
  let j := tile_start + threadIdx in
  if j <? n_cells then upd sh threadIdx d_X.[j] else sh.

(** One iteration of the loop over [k].  [d_nNBs] holds [int]s; a count
    never exceeds the number of live points, so the increment does not
    overflow once the buffer has been cleared. *)
Definition tile_pair (n_cells : nat) (d_X : list (Pt F))
    (d_old_v : list (float3 F)) (i threadIdx tile_start k : nat)
    (st : tile_state) : tile_state :=
  let j := tile_start + k in
  if (i <? n_cells) && (j <? n_cells) then
    let r := pt_sub d_X.[i] (shX st).[k] in
    let dist := norm3df (px r) (py r) (pz r) in
    let st :=
      if fltb dist (of_int 1) then
        let nNBs := upd (t_nNBs st) i ((t_nNBs st).[i] + 1)%Z in
        let sum_v := upd (t_sum_v st) i (f3_add (t_sum_v st).[i] d_old_v.[j]) in
        mktile_state (shX st) (Fi st) sum_v nNBs
      else st in
    mktile_state (shX st)
      (upd (Fi st) threadIdx (pt_add (Fi st).[threadIdx] (pw_int d_X.[i] r dist i j)))
      (t_sum_v st) (t_nNBs st)
  else st.

(** One tile: every thread of the block stores its element of the tile,
    the block synchronises, and every thread runs the loop over [k].  A
    block is one warp of [TILE_SIZE = 32] threads, which go through the
    two phases together. *)
Definition tile_step (n_cells : nat) (d_X : list (Pt F))
    (d_old_v : list (float3 F)) (blockIdx : nat) (st : tile_state)
    (tile_start : nat) : tile_state :=
  let sh :=
    fold_left (fun sh threadIdx => load_tile n_cells d_X tile_start threadIdx sh)
              (seq 0 TILE_SIZE) (shX st) in
  fold_left
    (fun st threadIdx =>
       let i := blockIdx * TILE_SIZE + threadIdx in
       fold_left (fun st k => tile_pair n_cells d_X d_old_v i threadIdx tile_start k st)
                 (seq 0 TILE_SIZE) st)
    (seq 0 TILE_SIZE)
    (mktile_state sh (Fi st) (t_sum_v st) (t_nNBs st)).

(** The values of [tile_start]: 0, TILE_SIZE, ... below [n_cells]. *)
Definition tile_starts (n_cells : nat) : list nat :=
  map (fun q => q * TILE_SIZE) (seq 0 ((n_cells + TILE_SIZE - 1) / TILE_SIZE)).

(** One block of [compute_tiles].  [sh0] is the content of the shared
    array when the block starts (it is not initialised by the kernel). *)
Definition compute_tiles_block (n_cells : nat) (d_X : list (Pt F))
    (d_old_v : list (float3 F)) (sh0 : list (Pt F)) (blockIdx : nat)
    (g : list (Pt F) * list (float3 F) * list Z)
    : list (Pt F) * list (float3 F) * list Z :=
  let '(d_dX, d_sum_v, d_nNBs) := g in
  let st :=
    fold_left (tile_step n_cells d_X d_old_v blockIdx) (tile_starts n_cells)
      (mktile_state sh0 (repeat (pt_zero dim) TILE_SIZE) d_sum_v d_nNBs) in
  let d_dX :=
    fold_left
      (fun d_dX threadIdx =>
         let i := blockIdx * TILE_SIZE + threadIdx in
         if i <? n_cells then upd d_dX i (Fi st).[threadIdx] else d_dX)
      (seq 0 TILE_SIZE) d_dX in
  (d_dX, t_sum_v st, t_nNBs st).

(** [compute_tiles<<<(n + TILE_SIZE - 1)/TILE_SIZE, TILE_SIZE>>>]. *)
Definition compute_tiles (n_cells : nat) (d_X d_dX : list (Pt F))
    (d_old_v d_sum_v : list (float3 F)) (d_nNBs : list Z) (sh0 : list (Pt F))
    : list (Pt F) * list (float3 F) * list Z :=
  fold_left
    (fun g blockIdx => compute_tiles_block n_cells d_X d_old_v sh0 blockIdx g)
    (seq 0 ((n_cells + TILE_SIZE - 1) / TILE_SIZE))
    (d_dX, d_sum_v, d_nNBs).

(** *** [N2n_solver] *)

(** The template parameter [n_max]. *)
Variable n_max : Z.

Record N2n_solver : Type := mkN2n_solver {
  d_X : list (Pt F);
  d_dX : list (Pt F);
  d_X1 : list (Pt F);
  d_dX1 : list (Pt F);
  d_old_v : list (float3 F);
  d_sum_v : list (float3 F);
  d_n : Z;
  d_nNBs : list Z
}.

(** [get_d_n]: reads the count back and asserts [n <= n_max]. *)
Definition get_d_n (s : N2n_solver) : option Z :=
  if (d_n s <=? n_max)%Z then Some (d_n s) else None.

(** [thrust::reduce(first, first + n, init)] with the addition of [Pt],
    taken here in the order of the indices (thrust leaves the order
    open). *)
Definition reduce (l : list (Pt F)) (n : nat) (init : Pt F) : Pt F :=
  fold_left pt_add (firstn n l) init.

(** The evaluator called by [take_step]: it receives
    [(n, d_X, d_dX, d_old_v, d_sum_v, d_nNBs)] and returns the three
    buffers it writes. *)
Definition Pwints : Type :=
  nat -> list (Pt F) -> list (Pt F) -> list (float3 F) -> list (float3 F) ->
  list Z -> list (Pt F) * list (float3 F) * list Z.

(** [N2n_solver::compute_pwints]: the launch of [compute_tiles].  The
    shared array starts with the arbitrary content [sh0 0 .. sh0 31]. *)
Definition compute_pwints (sh0 : nat -> Pt F) : Pwints :=
  fun n X dX old_v sum_v nNBs =>
    compute_tiles n X dX old_v sum_v nNBs (map sh0 (seq 0 TILE_SIZE)).

(** The part common to both stages of [take_step]: clear the
    accumulators, evaluate the pairwise interactions, add the generic
    forces and the mean velocity of the neighbours, and average the
    derivative.  It returns the derivative, the accumulators and the
    mean. *)
Definition rhs (pwints : Pwints) (gen_forces : Generic_forces) (n : Z)
    (X dX : list (Pt F)) (old_v sum_v : list (float3 F)) (nNBs : list Z)
    : list (Pt F) * list (float3 F) * list Z * Pt F :=
  let n_cells := Z.to_nat n in
  let nNBs := fill nNBs n_cells 0%Z in
  let sum_v := fill sum_v n_cells f3_zero in
  let '(dX, sum_v, nNBs) := pwints n_cells X dX old_v sum_v nNBs in
  let dX := gen_forces X dX in
  let dX :=
    launch (blocks n_cells) 32
      (fun blockIdx threadIdx => add_rhs n_cells sum_v nNBs (blockIdx * 32 + threadIdx))
      dX in
  let mean_dX := pt_div (reduce dX n_cells (pt_zero dim)) (of_int n) in
  (dX, sum_v, nNBs, mean_dX).

(** [take_step], for the evaluator [pwints]. *)
Definition take_step_with (pwints : Pwints) (dt : F)
    (gen_forces : Generic_forces) (s : N2n_solver) : option N2n_solver :=
  match get_d_n s with
  | None => None
  | Some n =>
      let n_cells := Z.to_nat n in
      (* 1st step *)
      let '(dX, sum_v, nNBs, mean_dX) :=
        rhs pwints gen_forces n (d_X s) (d_dX s) (d_old_v s) (d_sum_v s) (d_nNBs s) in
      let '(dX, X1) :=
        launch (blocks n_cells) 32
          (fun blockIdx threadIdx =>
             euler_step n_cells dt (d_X s) mean_dX (blockIdx * 32 + threadIdx))
          (dX, d_X1 s) in
      (* 2nd step *)
      let '(dX1, sum_v, nNBs, mean_dX1) :=
        rhs pwints gen_forces n X1 (d_dX1 s) (d_old_v s) sum_v nNBs in
      let '(dX1, X, old_v) :=
        launch (blocks n_cells) 32
          (fun blockIdx threadIdx =>
             heun_step n_cells dt dX mean_dX1 (blockIdx * 32 + threadIdx))
          (dX1, d_X s, d_old_v s) in
      Some (mkN2n_solver X dX X1 dX1 old_v sum_v (d_n s) nNBs)
  end.

(** [N2n_solver::take_step]. *)
Definition take_step (sh0 : nat -> Pt F) :=
  take_step_with (compute_pwints sh0).

(** *** [Solution] *)

(** The host side of a [Solution]; its [d_X] and [d_n] are those of the
    solver it derives from. *)
Record Solution : Type := mkSolution {
  h_X : list (Pt F);
  h_n : Z;
  device : N2n_solver
}.

Definition set_d_X_d_n (s : N2n_solver) (X : list (Pt F)) (n : Z) : N2n_solver :=
  mkN2n_solver X (d_dX s) (d_X1 s) (d_dX1 s) (d_old_v s) (d_sum_v s) n (d_nNBs s).

(** An assertion that fails aborts the program: [None]. *)
Definition copy_to_device (s : Solution) : option Solution :=
  if (h_n s <=? n_max)%Z then
    Some (mkSolution (h_X s) (h_n s)
            (set_d_X_d_n (device s)
               (memcpy (d_X (device s)) (h_X s) (Z.to_nat n_max)) (h_n s)))
  else None.

Definition copy_to_host (s : Solution) : option Solution :=
  let h_X' := memcpy (h_X s) (d_X (device s)) (Z.to_nat n_max) in
  let h_n' := d_n (device s) in
  if (h_n' <=? n_max)%Z then Some (mkSolution h_X' h_n' (device s)) else None.

End Solver.

(** ** The sorting-based lattice *)

Definition LATTICE_SIZE : Z := 50.
Definition N_CUBES : Z := LATTICE_SIZE * LATTICE_SIZE * LATTICE_SIZE.

(** The constructor of [Lattice_solver] fills [h_moore_nhood] and copies it
    to the constant [d_moore_nhood]. *)
Definition moore_nhood : list Z :=
  let h := repeat 0%Z 27 in
  let h := upd h 0 (- 1)%Z in
  let h := upd h 1 0%Z in
  let h := upd h 2 1%Z in
  let h :=
    fold_left
      (fun h i =>
         let h := upd h (i + 3) (h.[i mod 3] - LATTICE_SIZE)%Z in
         upd h (i + 6) (h.[i mod 3] + LATTICE_SIZE)%Z)
      (seq 0 3) h in
  fold_left
    (fun h i =>
       let h := upd h (i + 9) (h.[i mod 9] - LATTICE_SIZE * LATTICE_SIZE)%Z in
       upd h (i + 18) (h.[i mod 9] + LATTICE_SIZE * LATTICE_SIZE)%Z)
    (seq 0 9) h.

Definition d_moore_nhood : list Z := Eval vm_compute in moore_nhood.

(** Reading and writing a buffer at an [int] index; [None] outside of it. *)
Definition rdZ {A} (l : list A) (k : Z) : option A :=
  if (k <? 0)%Z then None else nth_error l (Z.to_nat k).

Definition updZ {A} (l : list A) (k : Z) (v : A) : option (list A) :=
  if (0 <=? k)%Z && (k <? Z.of_nat (length l))%Z
  then Some (upd l (Z.to_nat k) v) else None.

(** The values taken by [k] in [for (k = first; k <= last; k++)]. *)
Definition loop_range (first last : Z) : list Z :=
  map (fun o => (first + Z.of_nat o)%Z) (seq 0 (Z.to_nat (last - first + 1))).

Section Lattice.

Context {F : Type} {SF : Scalar F}.

Variable dim : nat.
Variable pw_int : @Pairwise_interaction F.

Definition CUBE_SIZE : F := of_int 1.

Record Lattice : Type := mkLattice {
  d_cube_id : list Z;
  d_cell_id : list nat;
  d_cube_start : list Z;
  d_cube_end : list Z
}.

(** The float expression cast to [int] in [compute_cube_ids]. *)
Definition cube_id_of (p : Pt F) (cube_size : F) : option Z :=
  to_int
    (fadd
       (fadd
          (fadd (ffloor (fdiv (px p) cube_size)) (of_int (LATTICE_SIZE / 2)))
          (fmul (fadd (ffloor (fdiv (py p) cube_size)) (of_int (LATTICE_SIZE / 2)))
                (of_int LATTICE_SIZE)))
       (fmul
          (fmul (fadd (ffloor (fdiv (pz p) cube_size)) (of_int (LATTICE_SIZE / 2)))
                (of_int LATTICE_SIZE))
          (of_int LATTICE_SIZE))).

(** Thread [i] of [compute_cube_ids]; the state is the pair
    [(d_cube_id, d_cell_id)].  The two [D_ASSERT]s on the range of [id]
    only report. *)
Definition compute_cube_ids (n_cells : nat) (d_X : list (Pt F)) (cube_size : F)
    (i : nat) (st : option (list Z * list nat)) : option (list Z * list nat) :=
  match st with
  | None => None
  | Some (cube_id, cell_id) =>
      if n_cells <=? i then st
      else
        match cube_id_of d_X.[i] cube_size with
        | None => None
        | Some id => Some (upd cube_id i id, upd cell_id i i)
        end
  end.

(** Thread [i] of [compute_cube_start_and_end]; the state is the pair
    [(d_cube_start, d_cube_end)]. *)
Definition compute_cube_start_and_end (n_cells : nat) (cube_id : list Z)
    (i : nat) (st : option (list Z * list Z)) : option (list Z * list Z) :=
  match st with
  | None => None
  | Some (cube_start, cube_end) =>
      if n_cells <=? i then st
      else
        let cube := cube_id.[i] in
        let prev := if 0 <? i then cube_id.[i - 1] else (- 1)%Z in
        match (if (cube =? prev)%Z then Some cube_start
               else updZ cube_start cube (Z.of_nat i)) with
        | None => None
        | Some cube_start =>
            let next :=
              if i <? n_cells - 1 then cube_id.[i + 1] else (cube_id.[i] + 1)%Z in
            match (if (cube =? next)%Z then Some cube_end
                   else updZ cube_end cube (Z.of_nat i)) with
            | None => None
            | Some cube_end => Some (cube_start, cube_end)
            end
        end
  end.

(** The accumulators of one thread of [compute_lattice_pwints]: the
    register [F] and the two global buffers. *)
Definition lattice_acc : Type := (Pt F * list (float3 F) * list Z)%type.

(** The body of the loop over [k]. *)
Definition lattice_pair (d_X : list (Pt F)) (d_old_v : list (float3 F))
    (lat : Lattice) (i : nat) (acc : option lattice_acc) (k : Z)
    : option lattice_acc :=
  match acc with
  | None => None
  | Some (Fa, sum_v, nNBs) =>
      match rdZ (d_cell_id lat) k with
      | None => None
      | Some ck =>
          let ci := (d_cell_id lat).[i] in
          let Xi := d_X.[ci] in
          let Xj := d_X.[ck] in
          let r := pt_sub Xi Xj in
          let dist := norm3df (px r) (py r) (pz r) in
          if fltb dist CUBE_SIZE then
            let nNBs := upd nNBs ci (nNBs.[ci] + 1)%Z in
            let sum_v := upd sum_v ci (f3_add sum_v.[ci] d_old_v.[ck]) in
            Some (pt_add Fa (pw_int Xi r dist ci ck), sum_v, nNBs)
          else acc
      end
  end.

(** The body of the loop over the 27 cubes of the Moore neighbourhood. *)
Definition lattice_cube (d_X : list (Pt F)) (d_old_v : list (float3 F))
    (lat : Lattice) (i : nat) (acc : option lattice_acc) (j : nat)
    : option lattice_acc :=
  match acc with
  | None => None
  | Some _ =>
      let cube := ((d_cube_id lat).[i] + d_moore_nhood.[j])%Z in
      match rdZ (d_cube_start lat) cube, rdZ (d_cube_end lat) cube with
      | Some first, Some last =>
          fold_left (lattice_pair d_X d_old_v lat i) (loop_range first last) acc
      | _, _ => None
      end
  end.

(** Thread [i] of [compute_lattice_pwints]; the state is
    [(d_dX, d_sum_v, d_nNBs)]. *)
Definition compute_lattice_pwints (n_cells : nat) (d_X : list (Pt F))
    (d_old_v : list (float3 F)) (lat : Lattice) (i : nat)
    (st : option (list (Pt F) * list (float3 F) * list Z))
    : option (list (Pt F) * list (float3 F) * list Z) :=
  match st with
  | None => None
  | Some (d_dX, d_sum_v, d_nNBs) =>
      if n_cells <=? i then st
      else
        match fold_left (lattice_cube d_X d_old_v lat i) (seq 0 27)
                (Some (pt_zero dim, d_sum_v, d_nNBs)) with
        | None => None
        | Some (Fa, d_sum_v, d_nNBs) =>
            Some (upd d_dX (d_cell_id lat).[i] Fa, d_sum_v, d_nNBs)
        end
  end.

(** [thrust::sort_by_key(keys, keys + n, values)], applied to the first
    [n] elements of both buffers. *)
Variable sort_by_key : list Z -> list nat -> list Z * list nat.

Definition sort_prefix (n : nat) (keys : list Z) (values : list nat)
    : list Z * list nat :=
  let '(ks, vs) := sort_by_key (firstn n keys) (firstn n values) in
  (ks ++ skipn n keys, vs ++ skipn n values).

(** [Lattice_solver::build_lattice(d_X, cube_size)] for the live count
    [n]. *)
Definition build_lattice (n : nat) (d_X : list (Pt F)) (cube_size : F)
    (lat : Lattice) : option Lattice :=
  match launch (blocks n) 32
          (fun blockIdx threadIdx =>
             compute_cube_ids n d_X cube_size (blockIdx * 32 + threadIdx))
          (Some (d_cube_id lat, d_cell_id lat)) with
  | None => None
  | Some (cube_id, cell_id) =>
      let cube_start := fill (d_cube_start lat) (Z.to_nat N_CUBES) (- 1)%Z in
      let cube_end := fill (d_cube_end lat) (Z.to_nat N_CUBES) (- 2)%Z in
      let '(cube_id, cell_id) := sort_prefix n cube_id cell_id in
      match launch (blocks n) 32
              (fun blockIdx threadIdx =>
                 compute_cube_start_and_end n cube_id (blockIdx * 32 + threadIdx))
              (Some (cube_start, cube_end)) with
      | None => None
      | Some (cube_start, cube_end) =>
          Some (mkLattice cube_id cell_id cube_start cube_end)
      end
  end.

(** [Lattice_solver::compute_pwints]: [build_lattice(d_X)] with the
    default [CUBE_SIZE], then the launch of [compute_lattice_pwints] on
    the lattice just built (the kernel's parameter [d_lattice]). *)
Definition lattice_pwints (n : nat) (d_X d_dX : list (Pt F))
    (d_old_v d_sum_v : list (float3 F)) (d_nNBs : list Z) (lat : Lattice)
    : option (list (Pt F) * list (float3 F) * list Z) :=
  match build_lattice n d_X CUBE_SIZE lat with
  | None => None
  | Some lat' =>
      launch ((n + TILE_SIZE - 1) / TILE_SIZE) TILE_SIZE
        (fun blockIdx threadIdx =>
           compute_lattice_pwints n d_X d_old_v lat'
             (blockIdx * TILE_SIZE + threadIdx))
        (Some (d_dX, d_sum_v, d_nNBs))
  end.

End Lattice.

(** An insertion sort by key, one admissible behaviour of
    [thrust::sort_by_key]. *)
Fixpoint insert_by_key (k : Z) (v : nat) (l : list (Z * nat)) : list (Z * nat) :=
  match l with
  | [] => [(k, v)]
  | (k', v') :: l' =>
      if (k <? k')%Z then (k, v) :: l else (k', v') :: insert_by_key k v l'
  end.

Definition insertion_sort_by_key (keys : list Z) (values : list nat)
    : list Z * list nat :=
  List.split (fold_right (fun kv l => insert_by_key (fst kv) (snd kv) l) []
           (combine keys values)).

(** ** Vocabulary of the statements *)

Section Pairs.

Context {F : Type} {SF : Scalar F}.
Variable dim : nat.
Variable pw_int : @Pairwise_interaction F.
Variable n : nat.
Variable X : list (Pt F).
Variable old_v : list (float3 F).

(** The distance that thread [i] computes for the pair [(i, j)]. *)
Definition dist (i j : nat) : F :=
  let r := pt_sub X.[i] X.[j] in norm3df (px r) (py r) (pz r).

(** [dist < 1]: bolls closer than 1 are neighbours. *)
Definition close (i j : nat) : bool := fltb (dist i j) (of_int 1).

(** The contribution of the pair [(i, j)] to the derivative of [i]. *)
Definition pw (i j : nat) : Pt F :=
  pw_int X.[i] (pt_sub X.[i] X.[j]) (dist i j) i j.

(** The three accumulations of entity [i] over the candidates [js], in
    the order of [js]. *)
Definition accF (i : nat) (js : list nat) (F0 : Pt F) : Pt F :=
  fold_left (fun a j => pt_add a (pw i j)) js F0.

(** The same when the interaction is only evaluated for neighbours, as
    in [compute_lattice_pwints]. *)
Definition accF_close (i : nat) (js : list nat) (F0 : Pt F) : Pt F :=
  fold_left (fun a j => if close i j then pt_add a (pw i j) else a) js F0.

Definition accS (i : nat) (js : list nat) (s0 : float3 F) : float3 F :=
  fold_left (fun a j => if close i j then f3_add a old_v.[j] else a) js s0.

Definition accN (i : nat) (js : list nat) (c0 : Z) : Z :=
  fold_left (fun a j => if close i j then (a + 1)%Z else a) js c0.

(** The neighbours of [i] among the candidates [js], in the order in
    which they are met. *)
Definition neighbours (i : nat) (js : list nat) : list nat := filter (close i) js.

(** The candidates of one tile: [tile_start + k] for the [k] that pass
    the test [j < n_cells]. *)
Definition tile_js (tile_start m : nat) : list nat :=
  filter (fun j => j <? n) (map (fun k => tile_start + k) (seq 0 m)).

(** The effect of the loop over [k] of one thread on the block state. *)
Definition thread_put (t i : nat) (js : list nat) (st : tile_state (F:=F)) : tile_state :=
  mktile_state (shX st)
    (upd (Fi st) t (accF i js (Fi st).[t]))
    (upd (t_sum_v st) i (accS i js (t_sum_v st).[i]))
    (upd (t_nNBs st) i (accN i js (t_nNBs st).[i])).

(** Membership of the global index [i] in block [b]. *)
Definition in_block (b i : nat) : bool :=
  (b * TILE_SIZE <=? i) && (i <? b * TILE_SIZE + TILE_SIZE).

(** What a block state [st'] looks like when, starting from [st], the
    threads below [m] of block [b] have accumulated the candidates [js]. *)
Definition accumulated (b m : nat) (js : list nat) (st st' : tile_state (F:=F)) : Prop :=
  length (Fi st') = length (Fi st) /\
  length (t_sum_v st') = length (t_sum_v st) /\
  length (t_nNBs st') = length (t_nNBs st) /\
  (forall t, (Fi st').[t] =
             if (t <? m) && (b * TILE_SIZE + t <? n)
             then accF (b * TILE_SIZE + t) js (Fi st).[t] else (Fi st).[t]) /\
  (forall i, (t_sum_v st').[i] =
             if (b * TILE_SIZE <=? i) && (i <? b * TILE_SIZE + m) && (i <? n)
             then accS i js (t_sum_v st).[i] else (t_sum_v st).[i]) /\
  (forall i, (t_nNBs st').[i] =
             if (b * TILE_SIZE <=? i) && (i <? b * TILE_SIZE + m) && (i <? n)
             then accN i js (t_nNBs st).[i] else (t_nNBs st).[i]).

(** What the buffers [(d_dX, d_sum_v, d_nNBs)] look like when, starting
    from [g], the entities below [m] have been evaluated against all. *)
Definition evaluated (m : nat)
    (g g' : list (Pt F) * list (float3 F) * list Z) : Prop :=
  let '(dX, sum_v, nNBs) := g in
  let '(dX', sum_v', nNBs') := g' in
  length dX' = length dX /\ length sum_v' = length sum_v /\
  length nNBs' = length nNBs /\
  (forall i, dX'.[i] = if (i <? m) && (i <? n)
                       then accF i (seq 0 n) (pt_zero dim) else dX.[i]) /\
  (forall i, sum_v'.[i] = if (i <? m) && (i <? n)
                          then accS i (seq 0 n) sum_v.[i] else sum_v.[i]) /\
  (forall i, nNBs'.[i] = if (i <? m) && (i <? n)
                         then accN i (seq 0 n) nNBs.[i] else nNBs.[i]).

End Pairs.

Section Drift.

Context {F : Type} {SF : Scalar F}.

(** A derivative [p] after the subtraction of the mean [m] in
    [euler_step] and [heun_step]. *)
Definition drift (p m : Pt F) : Pt F :=
  mkPt (fsub (px p) (px m)) (fsub (py p) (py m)) (fsub (pz p) (pz m)) (aux p).

(** A derivative [p] after [add_rhs] for the accumulators [s] and [c]. *)
Definition diffused (p : Pt F) (s : float3 F) (c : Z) : Pt F :=
  mkPt (fadd (px p) (fdiv (vx s) (of_int c)))
       (fadd (py p) (fdiv (vy s) (of_int c)))
       (fadd (pz p) (fdiv (vz s) (of_int c))) (aux p).

(** The sum of one member over a list of points. *)
Definition sum_of (member : Pt F -> F) (l : list (Pt F)) : F :=
  fold_left (fun a p => fadd a (member p)) l fzero.

(** The generic forces write into a buffer of fixed size. *)
Definition keeps_length (gen_forces : @Generic_forces F) : Prop :=
  forall X dX, length (gen_forces X dX) = length dX.

(** The buffers of a solver have room for the live points. *)
Definition roomy (s : N2n_solver (F:=F)) : Prop :=
  Z.to_nat (d_n s) <= length (d_X s) /\ Z.to_nat (d_n s) <= length (d_dX s) /\
  Z.to_nat (d_n s) <= length (d_X1 s) /\ Z.to_nat (d_n s) <= length (d_dX1 s) /\
  Z.to_nat (d_n s) <= length (d_old_v s) /\ Z.to_nat (d_n s) <= length (d_sum_v s) /\
  Z.to_nat (d_n s) <= length (d_nNBs s).

Definition pwints_keep_length (pwints : @Pwints F) : Prop :=
  forall n X dX old_v sum_v nNBs,
    n <= length dX -> n <= length sum_v -> n <= length nNBs ->
    length (fst (fst (pwints n X dX old_v sum_v nNBs))) = length dX /\
    length (snd (fst (pwints n X dX old_v sum_v nNBs))) = length sum_v /\
    length (snd (pwints n X dX old_v sum_v nNBs)) = length nNBs.

End Drift.

Section LatticeVocabulary.

Context {F : Type} {SF : Scalar F}.

(** What is asked of [thrust::sort_by_key]: the keys come out in
    non-decreasing order and every key keeps its value. *)
Definition sorts (sort_by_key : list Z -> list nat -> list Z * list nat) : Prop :=
  forall keys values,
    length keys = length values ->
    let '(keys', values') := sort_by_key keys values in
    length keys' = length keys /\ length values' = length values /\
    Sorted Z.le keys' /\
    Permutation (combine keys' values') (combine keys values).

(** Position [i] of the sorted keys opens, resp. closes, a run of equal
    keys: the two tests of [compute_cube_start_and_end]. *)
Definition is_first (cube_id : list Z) (i : nat) : bool :=
  negb (Z.eqb cube_id.[i] (if 0 <? i then cube_id.[i - 1] else (- 1)%Z)).

Definition is_last (n_cells : nat) (cube_id : list Z) (i : nat) : bool :=
  negb (Z.eqb cube_id.[i]
          (if i <? n_cells - 1 then cube_id.[i + 1] else (cube_id.[i] + 1)%Z)).

(** The sorted positions visited by the thread of position [i] of
    [compute_lattice_pwints] in its [j]-th cube, and the entities it meets
    over the 27 cubes, in the order of the two loops. *)
Definition cube_positions (lat : Lattice) (i j : nat) : list Z :=
  let cube := ((d_cube_id lat).[i] + d_moore_nhood.[j])%Z in
  loop_range (d_cube_start lat).[Z.to_nat cube] (d_cube_end lat).[Z.to_nat cube].

Definition candidates (lat : Lattice) (i : nat) : list nat :=
  flat_map
    (fun j => map (fun k => (d_cell_id lat).[Z.to_nat k]) (cube_positions lat i j))
    (seq 0 27).

(** A lattice over [n] points whose cube ids are [ids]: the cell ids are
    the points in some order, the cube ids follow them, and the range
    [d_cube_start[c] .. d_cube_end[c]] holds the sorted positions of the
    points of cube [c] and nothing else. *)
Definition built (n : nat) (ids : nat -> Z) (lat : Lattice) : Prop :=
  n <= length (d_cube_id lat) /\ n <= length (d_cell_id lat) /\
  length (d_cube_start lat) = Z.to_nat N_CUBES /\
  length (d_cube_end lat) = Z.to_nat N_CUBES /\
  Permutation (firstn n (d_cell_id lat)) (seq 0 n) /\
  (forall p, p < n -> (d_cube_id lat).[p] = ids (d_cell_id lat).[p]) /\
  (forall c, (0 <= c < N_CUBES)%Z ->
     forall k : Z,
       ((d_cube_start lat).[Z.to_nat c] <= k <= (d_cube_end lat).[Z.to_nat c])%Z <->
       ((0 <= k < Z.of_nat n)%Z /\ (d_cube_id lat).[Z.to_nat k] = c)) /\
  (forall c, (0 <= c < N_CUBES)%Z ->
     (forall p, p < n -> (d_cube_id lat).[p] <> c) ->
     (d_cube_start lat).[Z.to_nat c] = (- 1)%Z /\
     (d_cube_end lat).[Z.to_nat c] = (- 2)%Z).

(** A point lies in an interior cube of the lattice when none of its
    three cube coordinates is the first or the last of its axis. *)
Definition cube_coordinate (a : F) : option Z :=
  to_int (fadd (ffloor (fdiv a CUBE_SIZE)) (of_int (LATTICE_SIZE / 2))).

Definition interior_coordinate (a : F) : Prop :=
  exists c, cube_coordinate a = Some c /\ (1 <= c <= LATTICE_SIZE - 2)%Z.

Definition interior (p : Pt F) : Prop :=
  interior_coordinate (px p) /\ interior_coordinate (py p) /\
  interior_coordinate (pz p).

End LatticeVocabulary.

(** The cube id of a point in exact arithmetic, for cubes of size 1. *)
Definition cube_of (p : Pt R) : Z :=
  (Zfloor (px p) + LATTICE_SIZE / 2)
  + (Zfloor (py p) + LATTICE_SIZE / 2) * LATTICE_SIZE
  + (Zfloor (pz p) + LATTICE_SIZE / 2) * LATTICE_SIZE * LATTICE_SIZE.

(** Every cube that the lattice evaluator looks up for a live point is a
    cube of the lattice (the own cube included, whose offset is 0). *)
Definition lookups_inside (X : list (Pt R)) (n : nat) : Prop :=
  forall i j, i < n -> j < 27 ->
    (0 <= cube_of X.[i] + d_moore_nhood.[j] < N_CUBES)%Z.

(** ** A small configuration *)

Module Example.

Definition f32 (k : Z) : spec_float := Binary32.of_Z k.

Definition ratio (a b : Z) : spec_float := Binary32.div (f32 a) (f32 b).

Definition pt3 (x y z : spec_float) : Pt spec_float := mkPt x y z [].

(** Three bolls on the x axis, at 0, 3/5 and 5. *)
Definition X3 : list (Pt spec_float) :=
  [pt3 (f32 0) (f32 0) (f32 0); pt3 (ratio 3 5) (f32 0) (f32 0);
   pt3 (f32 5) (f32 0) (f32 0)].

Definition old_v3 : list (float3 spec_float) :=
  [mkfloat3 (f32 1) (f32 0) (f32 0); mkfloat3 (f32 2) (f32 0) (f32 0);
   mkfloat3 (f32 4) (f32 0) (f32 0)].

Definition zeros3 : list (Pt spec_float) := repeat (pt_zero 0) 3.

Definition sum_v3 : list (float3 spec_float) := repeat f3_zero 3.

(** A repulsion that is linear in the separation. *)
Definition push : @Pairwise_interaction spec_float :=
  fun Xi r dist i j => if i =? j then pt_zero 0 else r.

Definition sh32 : list (Pt spec_float) := repeat (pt_zero 0) TILE_SIZE.

(** The same repulsion cut off at distance 1. *)
Definition short_range : @Pairwise_interaction spec_float :=
  fun Xi r dist i j =>
    if (i =? j) || negb (Binary32.ltb dist (f32 1)) then pt_zero 0 else r.

(** A solver holding the three bolls, with capacity 3. *)
Definition solver3 : N2n_solver :=
  mkN2n_solver X3 zeros3 zeros3 zeros3 old_v3 sum_v3 3 [0; 0; 0]%Z.

(** Two bolls that carry one more variable besides x, y and z, and an
    interaction that only feeds that variable, through the pair [i = j]. *)
Definition X2w : list (Pt spec_float) :=
  [mkPt (f32 0) (f32 0) (f32 0) [f32 0]; mkPt (ratio 3 5) (f32 0) (f32 0) [f32 0]].

Definition source : @Pairwise_interaction spec_float :=
  fun Xi r dist i j =>
    if i =? j then mkPt (f32 0) (f32 0) (f32 0) [f32 1] else pt_zero 1.

Definition solver2w : N2n_solver :=
  mkN2n_solver X2w (repeat (pt_zero 1) 2) (repeat (pt_zero 1) 2)
    (repeat (pt_zero 1) 2) (repeat f3_zero 2) (repeat f3_zero 2) 2 [0; 0]%Z.

(** The same in exact arithmetic: two bolls at distance 3/5. *)
Definition X2r : list (Pt R) :=
  [mkPt 0%R 0%R 0%R []; mkPt (3 / 5)%R 0%R 0%R []].

Definition push_r : @Pairwise_interaction R :=
  fun Xi r dist i j => if i =? j then pt_zero 0 else r.

Definition solver2r : N2n_solver :=
  mkN2n_solver X2r (repeat (pt_zero 0) 2) (repeat (pt_zero 0) 2)
    (repeat (pt_zero 0) 2) (repeat f3_zero 2) (repeat f3_zero 2) 2 [0; 0]%Z.

(** An interaction of range 1 in exact arithmetic. *)
Definition short_range_r : @Pairwise_interaction R :=
  fun Xi r dist i j => if Exact.ltb dist 1 then r else pt_zero 0.

Definition lat2 : Lattice :=
  mkLattice (repeat 0%Z 2) (repeat 0 2)
    (repeat 0%Z (Z.to_nat N_CUBES)) (repeat 0%Z (Z.to_nat N_CUBES)).

Definition old_v2r : list (float3 R) :=
  [mkfloat3 1%R 0%R 0%R; mkfloat3 2%R 0%R 0%R].

(** Lattice buffers for three points, not yet built, and the cube ids of
    the three bolls: two in the cube of the origin, one five cubes
    further along x. *)
Definition lat3 : Lattice :=
  mkLattice (repeat 0%Z 3) (repeat 0 3)
    (repeat 0%Z (Z.to_nat N_CUBES)) (repeat 0%Z (Z.to_nat N_CUBES)).

Definition ids3 (i : nat) : Z := [63775; 63775; 63780]%Z.[i].

End Example.

(** * Properties *)

(** ** Buffers and launches *)

Section BufferFacts.

Context {A : Type} {D : Default A}.

Lemma length_upd (l : list A) i v : length (upd l i v) = length l.
Proof.
  revert i; induction l as [|a l IH]; intros [|i]; simpl; auto.
Qed.

Lemma rd_upd_eq (l : list A) i v : i < length l -> (upd l i v).[i] = v.
Proof.
  unfold rd; revert i; induction l as [|a l IH]; intros [|i] Hi; simpl in *;
    try lia; auto.
  apply IH; lia.
Qed.

Lemma rd_upd_neq (l : list A) i j v : i <> j -> (upd l i v).[j] = l.[j].
Proof.
  unfold rd; revert i j; induction l as [|a l IH]; intros [|i] [|j] Hij;
    simpl; auto; try lia.
Qed.

Lemma rd_upd (l : list A) i j v :
  (upd l i v).[j] = if (i =? j) && (i <? length l) then v else l.[j].
Proof.
  destruct (Nat.eqb_spec i j) as [->|Hij]; simpl.
  - destruct (Nat.ltb_spec j (length l)) as [Hj|Hj].
    + now apply rd_upd_eq.
    + unfold rd. rewrite !nth_overflow; auto. now rewrite length_upd.
  - now apply rd_upd_neq.
Qed.

Lemma upd_same (l : list A) i : upd l i l.[i] = l.
Proof.
  unfold rd; revert i; induction l as [|a l IH]; intros [|i]; simpl; auto.
  now rewrite IH.
Qed.

Lemma upd_upd (l : list A) i v w : upd (upd l i v) i w = upd l i w.
Proof.
  revert i; induction l as [|a l IH]; intros [|i]; simpl; auto.
  now rewrite IH.
Qed.

Lemma length_fill (l : list A) n v : length (fill l n v) = length l.
Proof.
  unfold fill. rewrite length_app, repeat_length, length_skipn. lia.
Qed.

Lemma rd_fill (l : list A) n v i :
  i < length l -> (fill l n v).[i] = if i <? n then v else l.[i].
Proof.
  intros Hi. unfold fill, rd.
  destruct (Nat.ltb_spec i n) as [Hn|Hn].
  - rewrite app_nth1 by (rewrite repeat_length; lia).
    apply nth_repeat_lt. lia.
  - rewrite app_nth2 by (rewrite repeat_length; lia).
    rewrite repeat_length, nth_skipn. f_equal. lia.
Qed.

Lemma memcpy_full (dst src : list A) :
  length dst = length src -> memcpy dst src (length src) = src.
Proof.
  intros H. unfold memcpy.
  rewrite firstn_all, skipn_all2 by lia. apply app_nil_r.
Qed.

Lemma list_eq_rd (l l' : list A) :
  length l = length l' -> (forall i, i < length l -> l.[i] = l'.[i]) -> l = l'.
Proof.
  intros Hl H. apply (nth_ext l l' dflt dflt); auto.
Qed.

End BufferFacts.

Lemma fold_left_ext_in {S B : Type} (f g : S -> B -> S) (l : list B) (s : S) :
  (forall s b, In b l -> f s b = g s b) -> fold_left f l s = fold_left g l s.
Proof.
  revert s; induction l as [|b l IH]; intros s H; simpl; auto.
  rewrite (H s b) by now left.
  apply IH. intros s' b' Hb. apply H. now right.
Qed.

Section LaunchFacts.

Context {S : Type}.

Lemma fold_seq_snoc (body : nat -> S -> S) (a m : nat) (s : S) :
  fold_left (fun s i => body i s) (seq a (m + 1)) s =
  body (a + m) (fold_left (fun s i => body i s) (seq a m) s).
Proof.
  rewrite seq_app, fold_left_app. reflexivity.
Qed.

(** Loop invariants for a fold over [0 .. m-1]. *)
Lemma fold_seq_inv (P : nat -> S -> Prop) (body : nat -> S -> S) (m : nat) (s : S) :
  P 0 s ->
  (forall i s, i < m -> P i s -> P (i + 1) (body i s)) ->
  P m (fold_left (fun s i => body i s) (seq 0 m) s).
Proof.
  intros H0 Hstep. induction m as [|m IH].
  - exact H0.
  - replace (Datatypes.S m) with (m + 1) by lia.
    rewrite fold_seq_snoc. apply Hstep; [lia|].
    apply IH. intros i s' Hi. apply Hstep. lia.
Qed.

Lemma fold_seq_shift (body : nat -> S -> S) (a m : nat) (s : S) :
  fold_left (fun s i => body i s) (seq a m) s =
  fold_left (fun s i => body (a + i) s) (seq 0 m) s.
Proof.
  revert body a s; induction m as [|m IH]; intros body a s; simpl; auto.
  rewrite Nat.add_0_r, (IH body (Datatypes.S a)), (IH (fun i => body (a + i)) 1).
  apply fold_left_ext_in. intros s' i _. f_equal. lia.
Qed.

(** A kernel that only looks at its global index runs once for each
    index of the grid, in increasing order. *)
Lemma launch_flat (g b : nat) (body : nat -> S -> S) (s : S) :
  launch g b (fun blockIdx threadIdx => body (blockIdx * b + threadIdx)) s =
  fold_left (fun s i => body i s) (seq 0 (g * b)) s.
Proof.
  unfold launch. induction g as [|g IH].
  - reflexivity.
  - replace (Datatypes.S g) with (g + 1) by lia.
    rewrite (fold_seq_snoc
               (fun blockIdx s =>
                  fold_left (fun s threadIdx => body (blockIdx * b + threadIdx) s)
                            (seq 0 b) s)).
    rewrite IH. simpl.
    replace ((g + 1) * b) with (g * b + b) by lia.
    rewrite seq_app, fold_left_app. simpl.
    now rewrite (fold_seq_shift body (g * b) b).
Qed.

End LaunchFacts.

Lemma blocks_cover (n : nat) : n <= blocks n * 32.
Proof.
  unfold blocks.
  pose proof (Nat.div_mod_eq (n + 32 - 1) 32) as H.
  pose proof (Nat.mod_upper_bound (n + 32 - 1) 32). lia.
Qed.

(** ** The tiled evaluator computes the all-pairs sums *)

Section PairFacts.

Context {F : Type} {SF : Scalar F}.
Variable pw_int : @Pairwise_interaction F.
Variable X : list (Pt F).
Variable old_v : list (float3 F).

Lemma accF_app i js js' F0 : accF pw_int X i (js ++ js') F0 = accF pw_int X i js' (accF pw_int X i js F0).
Proof. apply fold_left_app. Qed.

Lemma accS_app i js js' s0 : accS X old_v i (js ++ js') s0 = accS X old_v i js' (accS X old_v i js s0).
Proof. apply fold_left_app. Qed.

Lemma accN_app i js js' c0 : accN X i (js ++ js') c0 = accN X i js' (accN X i js c0).
Proof. apply fold_left_app. Qed.

Lemma accN_count i js c0 :
  accN X i js c0 = (c0 + Z.of_nat (length (neighbours X i js)))%Z.
Proof.
  revert c0; induction js as [|j js IH]; intros c0; simpl.
  - lia.
  - unfold accN in *. simpl. rewrite IH.
    destruct (close X i j); simpl; lia.
Qed.

Lemma accS_neighbours i js s0 :
  accS X old_v i js s0 = fold_left (fun a j => f3_add a old_v.[j]) (neighbours X i js) s0.
Proof.
  revert s0; induction js as [|j js IH]; intros s0; simpl; auto.
  unfold accS in *. simpl. rewrite IH.
  destruct (close X i j); reflexivity.
Qed.

End PairFacts.

Section Tiles.

Context {F : Type} {SF : Scalar F}.
Variable dim : nat.
Variable pw_int : @Pairwise_interaction F.
Variable n : nat.
Variable X : list (Pt F).
Variable old_v : list (float3 F).

Lemma tile_js_snoc ts m :
  tile_js n ts (m + 1) =
  tile_js n ts m ++ (if ts + m <? n then [ts + m] else []).
Proof.
  unfold tile_js. rewrite seq_app, map_app, filter_app. simpl.
  destruct (ts + m <? n); reflexivity.
Qed.

Lemma tile_js_seq ts m : tile_js n ts m = seq ts (Nat.min m (n - ts)).
Proof.
  induction m as [|m IH].
  - reflexivity.
  - replace (S m) with (m + 1) by lia. rewrite tile_js_snoc, IH.
    destruct (Nat.ltb_spec (ts + m) n).
    + replace (Nat.min (m + 1) (n - ts)) with (Nat.min m (n - ts) + 1) by lia.
      rewrite seq_app. simpl. do 3 f_equal. lia.
    + rewrite app_nil_r. f_equal. lia.
Qed.

(** After the loading phase the tile holds the points of the tile. *)
Lemma load_tile_spec ts sh k :
  length sh = TILE_SIZE -> k < TILE_SIZE -> ts + k < n ->
  (fold_left (fun sh t => load_tile n X ts t sh) (seq 0 TILE_SIZE) sh).[k]
  = X.[ts + k].
Proof.
  intros Hlen Hk Hj.
  assert (H : forall m,
             let sh' := fold_left (fun sh t => load_tile n X ts t sh) (seq 0 m) sh in
             length sh' = TILE_SIZE /\
             (k < m -> sh'.[k] = X.[ts + k])).
  { intros m.
    apply (fold_seq_inv
             (fun m sh' => length sh' = TILE_SIZE /\ (k < m -> sh'.[k] = X.[ts + k]))
             (fun t sh => load_tile n X ts t sh)).
    - split; [assumption | lia].
    - intros t sh' _ [Hl Hs]. unfold load_tile.
      destruct (Nat.ltb_spec (ts + t) n).
      + rewrite length_upd. split; [assumption|]. intros Hk'.
        rewrite rd_upd.
        destruct (Nat.eqb_spec t k) as [->|Hne]; simpl.
        * replace (k <? length sh') with true; auto.
          symmetry. apply Nat.ltb_lt. lia.
        * apply Hs. lia.
      + split; [assumption|]. intros Hk'.
        destruct (Nat.eq_dec t k) as [->|Hne]; [lia|]. apply Hs. lia. }
  apply (H TILE_SIZE). assumption.
Qed.

Lemma load_tile_length ts sh :
  length (fold_left (fun sh t => load_tile n X ts t sh) (seq 0 TILE_SIZE) sh)
  = length sh.
Proof.
  apply (fold_seq_inv (fun _ sh' => length sh' = length sh)
           (fun t sh => load_tile n X ts t sh)); auto.
  intros t sh' _ Hl. unfold load_tile.
  destruct (ts + t <? n); [rewrite length_upd|]; assumption.
Qed.

(** The effect of one iteration of the loop over [k]. *)
Lemma tile_pair_spec t i ts k st :
  i < n -> ts + k < n -> (shX st).[k] = X.[ts + k] ->
  tile_pair pw_int n X old_v i t ts k st
  = mktile_state (shX st)
      (upd (Fi st) t (pt_add (Fi st).[t] (pw pw_int X i (ts + k))))
      (upd (t_sum_v st) i
         (if close X i (ts + k) then f3_add (t_sum_v st).[i] old_v.[ts + k]
          else (t_sum_v st).[i]))
      (upd (t_nNBs st) i
         (if close X i (ts + k) then ((t_nNBs st).[i] + 1)%Z else (t_nNBs st).[i])).
Proof.
  intros Hi Hj Hsh. unfold tile_pair.
  replace (i <? n) with true by (symmetry; now apply Nat.ltb_lt).
  replace (ts + k <? n) with true by (symmetry; now apply Nat.ltb_lt).
  simpl andb. cbv iota. rewrite Hsh.
  unfold close, pw, dist. cbv zeta.
  destruct (fltb _ _); simpl; rewrite ?upd_same; reflexivity.
Qed.

Lemma thread_loop t i ts m st :
  i < n -> t < length (Fi st) -> i < length (t_sum_v st) -> i < length (t_nNBs st) ->
  (forall k, k < m -> ts + k < n -> (shX st).[k] = X.[ts + k]) ->
  fold_left (fun st k => tile_pair pw_int n X old_v i t ts k st) (seq 0 m) st
  = thread_put pw_int X old_v t i (tile_js n ts m) st.
Proof.
  intros Hi Ht Hs Hn. induction m as [|m IH]; intros Hsh.
  - unfold thread_put, tile_js. simpl. rewrite !upd_same. now destruct st.
  - replace (S m) with (m + 1) by lia.
    rewrite (fold_seq_snoc (fun k st => tile_pair pw_int n X old_v i t ts k st)).
    rewrite IH by (intros; apply Hsh; lia).
    rewrite tile_js_snoc. simpl.
    destruct (Nat.ltb_spec (ts + m) n) as [Hj|Hj].
    + rewrite tile_pair_spec by (auto; simpl; apply Hsh; lia).
      unfold thread_put. simpl.
      rewrite !rd_upd_eq, !upd_upd by assumption.
      rewrite accF_app, accS_app, accN_app. reflexivity.
    + rewrite app_nil_r. unfold tile_pair.
      replace (ts + m <? n) with false by (symmetry; now apply Nat.ltb_ge).
      now rewrite andb_false_r.
Qed.

Lemma thread_loop_idle t i ts m st :
  n <= i ->
  fold_left (fun st k => tile_pair pw_int n X old_v i t ts k st) (seq 0 m) st = st.
Proof.
  intros Hi.
  apply (fold_seq_inv (fun _ st' => st' = st)
           (fun k st => tile_pair pw_int n X old_v i t ts k st)); auto.
  intros k st' _ ->. unfold tile_pair.
  replace (i <? n) with false by (symmetry; now apply Nat.ltb_ge).
  reflexivity.
Qed.

End Tiles.

Ltac cmp :=
  repeat match goal with
    | |- context [?a <? ?b] => destruct (Nat.ltb_spec a b)
    | |- context [?a <=? ?b] => destruct (Nat.leb_spec a b)
    | |- context [?a =? ?b] => destruct (Nat.eqb_spec a b)
    end;
  simpl andb; cbv iota; try reflexivity; try lia.

Section TileStep.

Context {F : Type} {SF : Scalar F}.
Variable dim : nat.
Variable pw_int : @Pairwise_interaction F.
Variable n : nat.
Variable X : list (Pt F).
Variable old_v : list (float3 F).

Lemma tile_step_spec b ts st :
  length (shX st) = TILE_SIZE -> length (Fi st) = TILE_SIZE ->
  n <= length (t_sum_v st) -> n <= length (t_nNBs st) ->
  let st' := tile_step pw_int n X old_v b st ts in
  length (shX st') = TILE_SIZE /\
  accumulated pw_int n X old_v b TILE_SIZE (tile_js n ts TILE_SIZE) st st'.
Proof.
  intros Hsh HFi Hsv Hnb. unfold tile_step.
  set (sh := fold_left _ _ (shX st)).
  set (st0 := mktile_state sh (Fi st) (t_sum_v st) (t_nNBs st)).
  assert (Hsh0 : forall k, k < TILE_SIZE -> ts + k < n -> sh.[k] = X.[ts + k]).
  { intros k Hk Hj. now apply load_tile_spec. }
  assert (Hlen0 : length sh = TILE_SIZE).
  { unfold sh. now rewrite load_tile_length. }
  pose proof
    (fold_seq_inv
       (fun m st' =>
          m <= TILE_SIZE ->
          shX st' = sh /\
          accumulated pw_int n X old_v b m (tile_js n ts TILE_SIZE) st st')
       (fun t st' =>
          fold_left
            (fun st k => tile_pair pw_int n X old_v (b * TILE_SIZE + t) t ts k st)
            (seq 0 TILE_SIZE) st')
       TILE_SIZE st0) as H.
  cbv beta in H. destruct H as [H1 H2].
  - intros _. split; [reflexivity|]. unfold accumulated, st0; simpl.
    repeat split; auto; intros; cmp.
  - intros t st' Ht IH Hm. destruct IH as (E & L1 & L2 & L3 & A1 & A2 & A3); [lia|].
    destruct (Nat.lt_ge_cases (b * TILE_SIZE + t) n) as [Hi|Hi].
    + rewrite (@thread_loop _ _ pw_int n X old_v) by (rewrite ?E; auto; lia).
      unfold thread_put, accumulated. simpl. rewrite !length_upd.
      split; [assumption|]. repeat split; try assumption.
      * intros t'. rewrite rd_upd, !A1, L1, HFi.
        destruct (Nat.eqb_spec t t') as [<-|Hne]; cmp.
      * intros i. rewrite rd_upd, !A2, L2.
        destruct (Nat.eqb_spec (b * TILE_SIZE + t) i) as [<-|Hne]; cmp.
      * intros i. rewrite rd_upd, !A3, L3.
        destruct (Nat.eqb_spec (b * TILE_SIZE + t) i) as [<-|Hne]; cmp.
    + rewrite thread_loop_idle by assumption.
      split; [assumption|]. unfold accumulated. repeat split; try assumption.
      * intros t'. rewrite A1. cmp.
      * intros i. rewrite A2. cmp.
      * intros i. rewrite A3. cmp.
  - lia.
  - split; [now rewrite H1 | exact H2].
Qed.

Lemma accumulated_trans b m js js' (st0 st1 st2 : tile_state (F:=F)) :
  accumulated pw_int n X old_v b m js st0 st1 ->
  accumulated pw_int n X old_v b m js' st1 st2 ->
  accumulated pw_int n X old_v b m (js ++ js') st0 st2.
Proof.
  intros (L1 & L2 & L3 & A1 & A2 & A3) (M1 & M2 & M3 & B1 & B2 & B3).
  unfold accumulated. repeat split; try congruence.
  - intros t. rewrite B1, A1, accF_app. now destruct (_ && _).
  - intros i. rewrite B2, A2, accS_app. now destruct (_ && _).
  - intros i. rewrite B3, A3, accN_app. now destruct (_ && _).
Qed.

Lemma seq_tile_js q :
  seq 0 (Nat.min (q * TILE_SIZE) n) ++ tile_js n (q * TILE_SIZE) TILE_SIZE
  = seq 0 (Nat.min ((q + 1) * TILE_SIZE) n).
Proof.
  rewrite tile_js_seq.
  destruct (Nat.le_gt_cases (q * TILE_SIZE) n) as [H|H].
  - replace (Nat.min ((q + 1) * TILE_SIZE) n)
      with (Nat.min (q * TILE_SIZE) n + Nat.min TILE_SIZE (n - q * TILE_SIZE)) by lia.
    rewrite seq_app. do 2 f_equal. lia.
  - replace (Nat.min TILE_SIZE (n - q * TILE_SIZE)) with 0 by lia.
    simpl. rewrite app_nil_r. f_equal. lia.
Qed.

Lemma fold_left_map {S B C : Type} (f : S -> C -> S) (g : B -> C) (l : list B) (s : S) :
  fold_left f (map g l) s = fold_left (fun s x => f s (g x)) l s.
Proof.
  revert s; induction l as [|x l IH]; intros s; simpl; auto.
Qed.

Lemma tile_count_cover : n <= (n + TILE_SIZE - 1) / TILE_SIZE * TILE_SIZE.
Proof. apply blocks_cover. Qed.

(** All the tiles of one block. *)
Lemma tiles_spec b st :
  length (shX st) = TILE_SIZE -> length (Fi st) = TILE_SIZE ->
  n <= length (t_sum_v st) -> n <= length (t_nNBs st) ->
  accumulated pw_int n X old_v b TILE_SIZE (seq 0 n) st
    (fold_left (tile_step pw_int n X old_v b) (tile_starts n) st).
Proof.
  intros Hsh HFi Hsv Hnb. unfold tile_starts. rewrite fold_left_map.
  pose proof
    (fold_seq_inv
       (fun q st' =>
          length (shX st') = TILE_SIZE /\
          accumulated pw_int n X old_v b TILE_SIZE
            (seq 0 (Nat.min (q * TILE_SIZE) n)) st st')
       (fun q st' => tile_step pw_int n X old_v b st' (q * TILE_SIZE))
       ((n + TILE_SIZE - 1) / TILE_SIZE) st) as H.
  cbv beta in H. destruct H as [_ H].
  - split; [assumption|]. change (Nat.min (0 * TILE_SIZE) n) with 0.
    unfold accumulated. cbn [seq accF accS accN fold_left].
    repeat split; intros; now destruct (_ && _).
  - intros q st' _ [L A].
    pose proof A as (L1 & L2 & L3 & _).
    destruct (tile_step_spec b (q * TILE_SIZE) st') as [L' A']; try congruence.
    split; [assumption|].
    rewrite <- seq_tile_js. eapply accumulated_trans; eassumption.
  - replace (Nat.min _ n) with n in H by (pose proof tile_count_cover; lia).
    exact H.
Qed.

Lemma rd_repeat {A} {D : Default A} (v : A) m t : t < m -> (repeat v m).[t] = v.
Proof. intros H. unfold rd. now apply nth_repeat_lt. Qed.

Lemma block_spec sh0 b g0 g :
  length sh0 = TILE_SIZE ->
  n <= length (fst (fst g0)) -> n <= length (snd (fst g0)) -> n <= length (snd g0) ->
  evaluated dim pw_int n X old_v (b * TILE_SIZE) g0 g ->
  evaluated dim pw_int n X old_v ((b + 1) * TILE_SIZE) g0
    (compute_tiles_block dim pw_int n X old_v sh0 b g).
Proof.
  destruct g0 as [[dX0 sv0] nb0], g as [[dX sv] nb].
  unfold evaluated, compute_tiles_block. cbn [fst snd].
  intros Hsh H1 H2 H3 (L1 & L2 & L3 & E1 & E2 & E3).
  set (st0 := mktile_state sh0 (repeat (pt_zero dim) TILE_SIZE) sv nb).
  destruct (tiles_spec b st0) as (M1 & M2 & M3 & A1 & A2 & A3);
    cbn [shX Fi t_sum_v t_nNBs st0]; rewrite ?repeat_length; try lia.
  set (st := fold_left _ _ st0) in *. cbn [shX Fi t_sum_v t_nNBs st0] in *.
  pose proof
    (fold_seq_inv
       (fun m d =>
          length d = length dX /\
          forall i, d.[i] = if (b * TILE_SIZE <=? i) && (i <? b * TILE_SIZE + m) && (i <? n)
                            then (Fi st).[i - b * TILE_SIZE] else dX.[i])
       (fun t d => if b * TILE_SIZE + t <? n
                   then upd d (b * TILE_SIZE + t) (Fi st).[t] else d)
       TILE_SIZE dX) as H.
  cbv beta in H. destruct H as [Ld Hd].
  - split; [reflexivity|]. intros i. cmp.
  - intros t d Ht [Ld Hd].
    destruct (Nat.ltb_spec (b * TILE_SIZE + t) n) as [Hi|Hi].
    + rewrite length_upd. split; [assumption|]. intros i.
      rewrite rd_upd, Hd, Ld.
      destruct (Nat.eqb_spec (b * TILE_SIZE + t) i) as [<-|Hne]; cmp.
      f_equal. lia.
    + split; [assumption|]. intros i. rewrite Hd. cmp.
  - repeat split; try congruence.
    + intros i. rewrite Hd, E1.
      destruct (Nat.leb_spec (b * TILE_SIZE) i); cmp.
      rewrite A1. cmp. rewrite rd_repeat by lia. f_equal. lia.
    + intros i. rewrite A2, E2. cmp.
    + intros i. rewrite A3, E3. cmp.
Qed.

(** The result of [compute_tiles]: entity [i] has accumulated every
    [j < n], in increasing order of [j]. *)
Lemma compute_tiles_spec sh0 dX sum_v nNBs :
  length sh0 = TILE_SIZE ->
  n <= length dX -> n <= length sum_v -> n <= length nNBs ->
  evaluated dim pw_int n X old_v n (dX, sum_v, nNBs)
    (compute_tiles dim pw_int n X dX old_v sum_v nNBs sh0).
Proof.
  intros Hsh H1 H2 H3. unfold compute_tiles.
  pose proof
    (fold_seq_inv
       (fun b g => evaluated dim pw_int n X old_v (b * TILE_SIZE) (dX, sum_v, nNBs) g)
       (fun b g => compute_tiles_block dim pw_int n X old_v sh0 b g)
       ((n + TILE_SIZE - 1) / TILE_SIZE) (dX, sum_v, nNBs)) as H.
  cbv beta in H.
  assert (E : forall m g, n <= m ->
                evaluated dim pw_int n X old_v m (dX, sum_v, nNBs) g -> evaluated dim pw_int n X old_v n (dX, sum_v, nNBs) g).
  { intros m [[a b'] c] Hm (L1 & L2 & L3 & E1 & E2 & E3).
    repeat split; auto; intros i;
      [rewrite E1 | rewrite E2 | rewrite E3]; cmp. }
  apply (E _ _ tile_count_cover). apply H.
  - unfold evaluated. repeat split; intros; cmp.
  - intros b g _ Hg. now apply block_spec.
Qed.

End TileStep.



(** ** The integrator kernels *)

Section Integrator.

Context {F : Type} {SF : Scalar F}.

Lemma sub_mean_spec (d_dX : list (Pt F)) i m :
  i < length d_dX -> sub_mean d_dX i m = upd d_dX i (drift d_dX.[i] m).
Proof.
  intros Hi. unfold sub_mean, drift, set_px, set_py, set_pz.
  rewrite !upd_upd, !rd_upd_eq by (rewrite ?length_upd; assumption).
  reflexivity.
Qed.

Lemma euler_launch n dt (X0 : list (Pt F)) mean dX X1 :
  n <= length dX -> n <= length X1 ->
  let '(dX', X1') :=
    launch (blocks n) 32
      (fun blockIdx threadIdx => euler_step n dt X0 mean (blockIdx * 32 + threadIdx))
      (dX, X1) in
  length dX' = length dX /\ length X1' = length X1 /\
  (forall i, dX'.[i] = if i <? n then drift dX.[i] mean else dX.[i]) /\
  (forall i, X1'.[i] = if i <? n then pt_add X0.[i] (pt_scale (drift dX.[i] mean) dt)
                       else X1.[i]).
Proof.
  intros H1 H2. rewrite launch_flat.
  pose proof
    (fold_seq_inv
       (fun m (st : list (Pt F) * list (Pt F)) =>
          length (fst st) = length dX /\ length (snd st) = length X1 /\
          (forall i, (fst st).[i] = if (i <? m) && (i <? n) then drift dX.[i] mean
                                    else dX.[i]) /\
          (forall i, (snd st).[i] =
                     if (i <? m) && (i <? n)
                     then pt_add X0.[i] (pt_scale (drift dX.[i] mean) dt) else X1.[i]))
       (fun i st => euler_step n dt X0 mean i st) (blocks n * 32) (dX, X1)) as H.
  cbv beta in H. destruct (fold_left _ _ _) as [dX' X1'].
  destruct H as (L1 & L2 & E1 & E2).
  - cbn [fst snd]. repeat split; intros; cmp.
  - intros i [a b] _ (L1 & L2 & E1 & E2). cbn [fst snd] in *. unfold euler_step.
    destruct (Nat.leb_spec n i) as [Hi|Hi]; cbn [fst snd].
    + repeat split; auto; intros j; [rewrite E1 | rewrite E2]; cmp.
    + rewrite sub_mean_spec by lia. rewrite !length_upd.
      rewrite rd_upd_eq by lia.
      repeat split; auto; intros j; rewrite rd_upd;
        [rewrite !E1, L1 | rewrite !E2, !E1, L2];
        destruct (Nat.eqb_spec i j) as [<-|Hne]; cmp.
  - cbn [fst snd] in *. pose proof (blocks_cover n).
    repeat split; auto; intros i; [rewrite E1 | rewrite E2]; cmp.
Qed.

Lemma heun_launch n dt (dX : list (Pt F)) mean dX1 X old_v :
  n <= length dX1 -> n <= length X -> n <= length old_v ->
  let '(dX1', X', old_v') :=
    launch (blocks n) 32
      (fun blockIdx threadIdx => heun_step n dt dX mean (blockIdx * 32 + threadIdx))
      (dX1, X, old_v) in
  length dX1' = length dX1 /\ length X' = length X /\ length old_v' = length old_v /\
  (forall i, dX1'.[i] = if i <? n then drift dX1.[i] mean else dX1.[i]) /\
  (forall i, X'.[i] =
             if i <? n
             then pt_add X.[i]
                    (pt_scale (pt_scale (pt_add dX.[i] (drift dX1.[i] mean)) fhalf) dt)
             else X.[i]) /\
  (forall i, old_v'.[i] =
             if i <? n
             then mkfloat3
                    (fmul (fadd (px dX.[i]) (px (drift dX1.[i] mean))) fhalf)
                    (fmul (fadd (py dX.[i]) (py (drift dX1.[i] mean))) fhalf)
                    (fmul (fadd (pz dX.[i]) (pz (drift dX1.[i] mean))) fhalf)
             else old_v.[i]).
Proof.
  intros H1 H2 H3. rewrite launch_flat.
  pose proof
    (fold_seq_inv
       (fun m (st : list (Pt F) * list (Pt F) * list (float3 F)) =>
          length (fst (fst st)) = length dX1 /\ length (snd (fst st)) = length X /\
          length (snd st) = length old_v /\
          (forall i, (fst (fst st)).[i] =
                     if (i <? m) && (i <? n) then drift dX1.[i] mean else dX1.[i]) /\
          (forall i, (snd (fst st)).[i] =
                     if (i <? m) && (i <? n)
                     then pt_add X.[i]
                            (pt_scale (pt_scale (pt_add dX.[i] (drift dX1.[i] mean)) fhalf) dt)
                     else X.[i]) /\
          (forall i, (snd st).[i] =
                     if (i <? m) && (i <? n)
                     then mkfloat3
                            (fmul (fadd (px dX.[i]) (px (drift dX1.[i] mean))) fhalf)
                            (fmul (fadd (py dX.[i]) (py (drift dX1.[i] mean))) fhalf)
                            (fmul (fadd (pz dX.[i]) (pz (drift dX1.[i] mean))) fhalf)
                     else old_v.[i]))
       (fun i st => heun_step n dt dX mean i st) (blocks n * 32) (dX1, X, old_v)) as H.
  cbv beta in H. destruct (fold_left _ _ _) as [[dX1' X'] old_v'].
  destruct H as (L1 & L2 & L3 & E1 & E2 & E3).
  - cbn [fst snd]. repeat split; intros; cmp.
  - intros i [[a b] c] _ (L1 & L2 & L3 & E1 & E2 & E3). cbn [fst snd] in *.
    unfold heun_step.
    destruct (Nat.leb_spec n i) as [Hi|Hi]; cbn [fst snd].
    + repeat split; auto; intros j; [rewrite E1 | rewrite E2 | rewrite E3]; cmp.
    + rewrite sub_mean_spec by lia. rewrite !upd_upd, !length_upd.
      rewrite !rd_upd_eq by (rewrite ?length_upd; lia). cbn [vx vy vz].
      repeat split; auto; intros j; rewrite rd_upd;
        [rewrite !E1, L1 | rewrite !E2, !E1, L2 | rewrite !E3, !E1, L3];
        destruct (Nat.eqb_spec i j) as [<-|Hne]; cmp.
  - cbn [fst snd] in *. pose proof (blocks_cover n).
    repeat split; auto; intros i; [rewrite E1 | rewrite E2 | rewrite E3]; cmp.
Qed.

Lemma add_rhs_launch n (sum_v : list (float3 F)) nNBs (dX : list (Pt F)) :
  n <= length dX ->
  let dX' :=
    launch (blocks n) 32
      (fun blockIdx threadIdx => add_rhs n sum_v nNBs (blockIdx * 32 + threadIdx)) dX in
  length dX' = length dX /\
  (forall i, dX'.[i] = if i <? n then diffused dX.[i] sum_v.[i] nNBs.[i] else dX.[i]).
Proof.
  intros H1. cbv zeta. rewrite launch_flat.
  pose proof
    (fold_seq_inv
       (fun m (d : list (Pt F)) =>
          length d = length dX /\
          (forall i, d.[i] = if (i <? m) && (i <? n)
                             then diffused dX.[i] sum_v.[i] nNBs.[i] else dX.[i]))
       (fun i d => add_rhs n sum_v nNBs i d) (blocks n * 32) dX) as H.
  cbv beta in H. destruct H as (L1 & E1).
  - split; intros; cmp.
  - intros i d _ (L1 & E1). unfold add_rhs.
    destruct (Nat.leb_spec n i) as [Hi|Hi].
    + split; auto. intros j. rewrite E1. cmp.
    + unfold set_px, set_py, set_pz.
      rewrite !upd_upd, !length_upd, !rd_upd_eq by (rewrite ?length_upd; lia).
      cbn [px py pz aux].
      split; auto. intros j. rewrite rd_upd, !E1, L1.
      destruct (Nat.eqb_spec i j) as [<-|Hne]; cmp.
  - pose proof (blocks_cover n).
    split; auto. intros i. rewrite E1. cmp.
Qed.

Variable dim : nat.
Variable n_max : Z.

Lemma compute_pwints_keep_length pw_int sh0 :
  pwints_keep_length (compute_pwints dim pw_int sh0).
Proof.
  intros n X dX old_v sum_v nNBs H1 H2 H3. unfold compute_pwints.
  pose proof (compute_tiles_spec dim pw_int n X old_v (map sh0 (seq 0 TILE_SIZE))
                dX sum_v nNBs) as H.
  destruct (compute_tiles _ _ _ _ _ _ _ _ _) as [[a b] c].
  destruct H as (L1 & L2 & L3 & _); auto.
Qed.

(** The outcome of the part common to both stages. *)
Lemma rhs_spec pwints gen_forces n X dX old_v sum_v nNBs :
  pwints_keep_length pwints -> keeps_length gen_forces ->
  Z.to_nat n <= length dX -> Z.to_nat n <= length sum_v -> Z.to_nat n <= length nNBs ->
  let '(dX', sum_v', nNBs', mean) :=
    rhs dim pwints gen_forces n X dX old_v sum_v nNBs in
  length dX' = length dX /\ length sum_v' = length sum_v /\
  length nNBs' = length nNBs /\
  mean = pt_div (reduce dX' (Z.to_nat n) (pt_zero dim)) (of_int n).
Proof.
  intros Hp Hg H1 H2 H3. unfold rhs.
  pose proof (Hp (Z.to_nat n) X dX old_v (fill sum_v (Z.to_nat n) f3_zero)
                (fill nNBs (Z.to_nat n) 0%Z)) as H.
  destruct (pwints _ _ _ _ _ _) as [[a b] c]. cbn [fst snd] in H.
  rewrite !length_fill in H. destruct H as (L1 & L2 & L3); auto.
  pose proof (add_rhs_launch (Z.to_nat n) b c (gen_forces X a)) as H.
  cbv zeta in H. destruct H as [L4 _]; [rewrite Hg; lia|].
  rewrite L4, Hg. auto.
Qed.

(** [take_step] returns when the count passes the assertion, and the
    final buffers are the following functions of the two stage
    derivatives. *)
Lemma take_step_with_spec pwints dt gen_forces (s : N2n_solver) :
  pwints_keep_length pwints -> keeps_length gen_forces ->
  (d_n s <= n_max)%Z ->
  Z.to_nat (d_n s) <= length (d_X s) -> Z.to_nat (d_n s) <= length (d_dX s) ->
  Z.to_nat (d_n s) <= length (d_X1 s) -> Z.to_nat (d_n s) <= length (d_dX1 s) ->
  Z.to_nat (d_n s) <= length (d_old_v s) -> Z.to_nat (d_n s) <= length (d_sum_v s) ->
  Z.to_nat (d_n s) <= length (d_nNBs s) ->
  exists s',
    take_step_with dim n_max pwints dt gen_forces s = Some s' /\
    let n := Z.to_nat (d_n s) in
    let '(dX0, sum_v0, nNBs0, mean0) :=
      rhs dim pwints gen_forces (d_n s) (d_X s) (d_dX s) (d_old_v s) (d_sum_v s)
        (d_nNBs s) in
    let '(dX1, sum_v1, nNBs1, mean1) :=
      rhs dim pwints gen_forces (d_n s) (d_X1 s') (d_dX1 s) (d_old_v s) sum_v0 nNBs0 in
    d_n s' = d_n s /\ d_sum_v s' = sum_v1 /\ d_nNBs s' = nNBs1 /\
    n <= length (d_dX s') /\ n <= length (d_dX1 s') /\
    (forall i, (d_dX s').[i] = if i <? n then drift dX0.[i] mean0 else dX0.[i]) /\
    (forall i, (d_X1 s').[i] =
               if i <? n then pt_add (d_X s).[i] (pt_scale (d_dX s').[i] dt)
               else (d_X1 s).[i]) /\
    (forall i, (d_dX1 s').[i] = if i <? n then drift dX1.[i] mean1 else dX1.[i]) /\
    (forall i, (d_X s').[i] =
               if i <? n
               then pt_add (d_X s).[i]
                      (pt_scale (pt_scale (pt_add (d_dX s').[i] (d_dX1 s').[i]) fhalf) dt)
               else (d_X s).[i]) /\
    (forall i, (d_old_v s').[i] =
               if i <? n
               then mkfloat3
                      (fmul (fadd (px (d_dX s').[i]) (px (d_dX1 s').[i])) fhalf)
                      (fmul (fadd (py (d_dX s').[i]) (py (d_dX1 s').[i])) fhalf)
                      (fmul (fadd (pz (d_dX s').[i]) (pz (d_dX1 s').[i])) fhalf)
               else (d_old_v s).[i]).
Proof.
  intros Hp Hg Hn HX HdX HX1 HdX1 Hov Hsv Hnb.
  unfold take_step_with, get_d_n.
  replace (d_n s <=? n_max)%Z with true by (symmetry; now apply Z.leb_le).
  pose proof (rhs_spec pwints gen_forces (d_n s) (d_X s) (d_dX s) (d_old_v s)
                (d_sum_v s) (d_nNBs s) Hp Hg HdX Hsv Hnb) as R0.
  destruct (rhs dim pwints gen_forces (d_n s) (d_X s) _ _ _ _)
    as [[[dX0 sum_v0] nNBs0] mean0].
  destruct R0 as (L1 & L2 & L3 & M0).
  pose proof (euler_launch (Z.to_nat (d_n s)) dt (d_X s) mean0 dX0 (d_X1 s)) as E.
  destruct (launch _ _ _ (dX0, d_X1 s)) as [dXp X1].
  destruct E as (L4 & L5 & E1 & E2); try lia.
  pose proof (rhs_spec pwints gen_forces (d_n s) X1 (d_dX1 s) (d_old_v s)
                sum_v0 nNBs0 Hp Hg) as R1.
  destruct (rhs dim pwints gen_forces (d_n s) X1 _ _ _ _)
    as [[[dX1 sum_v1] nNBs1] mean1] eqn:ER1.
  destruct R1 as (L6 & L7 & L8 & M1); try lia.
  pose proof (heun_launch (Z.to_nat (d_n s)) dt dXp mean1 dX1 (d_X s) (d_old_v s)) as H.
  destruct (launch _ _ _ (dX1, d_X s, d_old_v s)) as [[dXc X'] old_v'].
  destruct H as (L9 & L10 & L11 & E3 & E4 & E5); try lia.
  eexists. split; [reflexivity|]. cbn [d_n d_sum_v d_nNBs d_dX d_dX1 d_X d_X1 d_old_v].
  cbv zeta. rewrite ER1.
  repeat split; auto; try lia.
  - intros i. rewrite E2, E1. cmp.
  - intros i. rewrite E4, E3. cmp.
  - intros i. rewrite E5, E3. cmp.
Qed.

End Integrator.

(** ** Drift removal in exact arithmetic *)

Section Sums.

Open Scope R_scope.

Lemma firstn_map_rd {A} {D : Default A} (f : A -> A) (l l' : list A) n :
  (n <= length l)%nat -> (n <= length l')%nat ->
  (forall i, (i < n)%nat -> l'.[i] = f l.[i]) ->
  firstn n l' = map f (firstn n l).
Proof.
  intros H1 H2 H.
  apply (nth_ext _ _ dflt (f dflt)).
  - rewrite length_map, !length_firstn. lia.
  - intros i Hi. rewrite length_firstn in Hi.
    rewrite map_nth, !nth_firstn.
    replace (i <? n)%nat with true by (symmetry; apply Nat.ltb_lt; lia).
    apply H. lia.
Qed.

Lemma fold_plus_init {A} (f : A -> R) (l : list A) (a : R) :
  fold_left (fun a p => a + f p) l a = a + fold_left (fun a p => a + f p) l 0.
Proof.
  revert a; induction l as [|p l IH]; intros a; simpl.
  - lra.
  - rewrite IH, (IH (0 + f p)). lra.
Qed.

Lemma sum_of_cons (member : Pt R -> R) p l :
  sum_of member (p :: l) = member p + sum_of member l.
Proof.
  unfold sum_of. simpl. rewrite fold_plus_init. lra.
Qed.

(** Subtracting [c] from a member of each of the points lowers the sum
    of that member by [length l * c]. *)
Lemma sum_of_shift (member : Pt R -> R) (g : Pt R -> Pt R) (c : R) l :
  (forall p, member (g p) = member p - c) ->
  sum_of member (map g l) = sum_of member l - INR (length l) * c.
Proof.
  intros Hg. induction l as [|p l IH].
  - unfold sum_of. simpl. lra.
  - cbn [map length]. rewrite !sum_of_cons, IH, Hg, S_INR. lra.
Qed.

Lemma reduce_member (member : Pt R -> R) dim (l : list (Pt R)) n :
  (forall p q, member (pt_add p q) = member p + member q) ->
  member (pt_zero dim) = 0 ->
  member (reduce l n (pt_zero dim)) = sum_of member (firstn n l).
Proof.
  intros Hadd H0.
  assert (G : forall l' a,
             member (fold_left pt_add l' a)
             = fold_left (fun a p => a + member p) l' (member a)).
  { induction l' as [|p l' IH]; intros a; simpl.
    - reflexivity.
    - now rewrite IH, Hadd. }
  unfold reduce. rewrite G, H0. reflexivity.
Qed.

(** After the subtraction of the mean, each positional member sums to
    zero over the live entities. *)
Lemma drift_sums_zero dim (n : Z) (dX dX' : list (Pt R)) :
  (1 <= n)%Z -> (Z.to_nat n <= length dX)%nat -> (Z.to_nat n <= length dX')%nat ->
  (forall i, dX'.[i] =
             if (i <? Z.to_nat n)%nat
             then drift dX.[i] (pt_div (reduce dX (Z.to_nat n) (pt_zero dim)) (of_int n))
             else dX.[i]) ->
  sum_of px (firstn (Z.to_nat n) dX') = 0 /\
  sum_of py (firstn (Z.to_nat n) dX') = 0 /\
  sum_of pz (firstn (Z.to_nat n) dX') = 0.
Proof.
  intros Hn H1 H2 H.
  set (m := pt_div _ _) in H.
  assert (E : firstn (Z.to_nat n) dX' = map (fun p => drift p m) (firstn (Z.to_nat n) dX)).
  { apply firstn_map_rd; auto. intros i Hi. rewrite H.
    now replace (i <? Z.to_nat n)%nat with true by (symmetry; apply Nat.ltb_lt; lia). }
  assert (L : INR (length (firstn (Z.to_nat n) dX)) = IZR n).
  { rewrite length_firstn, Nat.min_l, INR_IZR_INZ, Z2Nat.id by lia. reflexivity. }
  assert (N : IZR n <> 0) by (apply not_0_IZR; lia).
  rewrite E.
  repeat split.
  - rewrite (sum_of_shift px (fun p => drift p m) (px m)) by reflexivity.
    rewrite L. unfold m. cbn [px pt_div fdiv of_int exact].
    rewrite (reduce_member px) by reflexivity. field. exact N.
  - rewrite (sum_of_shift py (fun p => drift p m) (py m)) by reflexivity.
    rewrite L. unfold m. cbn [py pt_div fdiv of_int exact].
    rewrite (reduce_member py) by reflexivity. field. exact N.
  - rewrite (sum_of_shift pz (fun p => drift p m) (pz m)) by reflexivity.
    rewrite L. unfold m. cbn [pz pt_div fdiv of_int exact].
    rewrite (reduce_member pz) by reflexivity. field. exact N.
Qed.

End Sums.

(** ** The stages of [take_step] *)

Section Stages.

Context {F : Type} {SF : Scalar F}.
Variable dim : nat.
Variable pw_int : @Pairwise_interaction F.
Variable n_max : Z.
Variable sh0 : nat -> Pt F.

Lemma take_step_spec dt gen_forces (s : N2n_solver) :
  keeps_length gen_forces -> (d_n s <= n_max)%Z -> roomy s ->
  exists s',
    take_step dim pw_int n_max sh0 dt gen_forces s = Some s' /\
    let n := Z.to_nat (d_n s) in
    let '(dX0, sum_v0, nNBs0, mean0) :=
      rhs dim (compute_pwints dim pw_int sh0) gen_forces (d_n s) (d_X s) (d_dX s)
        (d_old_v s) (d_sum_v s) (d_nNBs s) in
    let '(dX1, sum_v1, nNBs1, mean1) :=
      rhs dim (compute_pwints dim pw_int sh0) gen_forces (d_n s) (d_X1 s') (d_dX1 s)
        (d_old_v s) sum_v0 nNBs0 in
    d_n s' = d_n s /\ d_sum_v s' = sum_v1 /\ d_nNBs s' = nNBs1 /\
    n <= length (d_dX s') /\ n <= length (d_dX1 s') /\
    (forall i, (d_dX s').[i] = if i <? n then drift dX0.[i] mean0 else dX0.[i]) /\
    (forall i, (d_X1 s').[i] =
               if i <? n then pt_add (d_X s).[i] (pt_scale (d_dX s').[i] dt)
               else (d_X1 s).[i]) /\
    (forall i, (d_dX1 s').[i] = if i <? n then drift dX1.[i] mean1 else dX1.[i]) /\
    (forall i, (d_X s').[i] =
               if i <? n
               then pt_add (d_X s).[i]
                      (pt_scale (pt_scale (pt_add (d_dX s').[i] (d_dX1 s').[i]) fhalf) dt)
               else (d_X s).[i]) /\
    (forall i, (d_old_v s').[i] =
               if i <? n
               then mkfloat3
                      (fmul (fadd (px (d_dX s').[i]) (px (d_dX1 s').[i])) fhalf)
                      (fmul (fadd (py (d_dX s').[i]) (py (d_dX1 s').[i])) fhalf)
                      (fmul (fadd (pz (d_dX s').[i]) (pz (d_dX1 s').[i])) fhalf)
               else (d_old_v s).[i]).
Proof.
  intros Hg Hn (R1 & R2 & R3 & R4 & R5 & R6 & R7).
  apply take_step_with_spec; auto.
  apply compute_pwints_keep_length.
Qed.

End Stages.

(** C5.  In the corrector stage of [take_step] the stored state of every
    live entity moves from its value before the step by
    [(dX0' + dX1') * 0.5 * dt], and the x, y, z members of
    [(dX0' + dX1') * 0.5] become its previous velocity [d_old_v[i]];
    [dX0'] and [dX1'] are the derivatives of the two stages after the
    subtraction of their means, left in [d_dX] and [d_dX1]. *)
Theorem heun_updates_original_state {F} {SF : Scalar F} (dim : nat)
    (pw_int : Pairwise_interaction) (n_max : Z) (sh0 : nat -> Pt F) (dt : F)
    (gen_forces : Generic_forces) (s : N2n_solver) (i : nat) :
  keeps_length gen_forces -> (d_n s <= n_max)%Z -> roomy s ->
  i < Z.to_nat (d_n s) ->
  exists s',
    take_step dim pw_int n_max sh0 dt gen_forces s = Some s' /\
    let '(dX0, sum_v0, nNBs0, mean0) :=
      rhs dim (compute_pwints dim pw_int sh0) gen_forces (d_n s) (d_X s) (d_dX s)
        (d_old_v s) (d_sum_v s) (d_nNBs s) in
    let '(dX1, _, _, mean1) :=
      rhs dim (compute_pwints dim pw_int sh0) gen_forces (d_n s) (d_X1 s') (d_dX1 s)
        (d_old_v s) sum_v0 nNBs0 in
    let dX0' := drift dX0.[i] mean0 in
    let dX1' := drift dX1.[i] mean1 in
    (d_dX s').[i] = dX0' /\ (d_dX1 s').[i] = dX1' /\
    (d_X s').[i] =
      pt_add (d_X s).[i] (pt_scale (pt_scale (pt_add dX0' dX1') fhalf) dt) /\
    (d_old_v s').[i] =
      mkfloat3 (fmul (fadd (px dX0') (px dX1')) fhalf)
               (fmul (fadd (py dX0') (py dX1')) fhalf)
               (fmul (fadd (pz dX0') (pz dX1')) fhalf).
Proof.
  intros Hg Hn Hr Hi.
  destruct (take_step_spec dim pw_int n_max sh0 dt gen_forces s Hg Hn Hr)
    as (s' & E & H).
  exists s'. split; [exact E|]. cbv zeta in H.
  destruct (rhs _ _ _ _ (d_X s) _ _ _ _) as [[[dX0 sum_v0] nNBs0] mean0].
  destruct (rhs _ _ _ _ (d_X1 s') _ _ _ _) as [[[dX1 sum_v1] nNBs1] mean1].
  destruct H as (_ & _ & _ & _ & _ & E1 & _ & E3 & E4 & E5).
  apply Nat.ltb_lt in Hi. cbv zeta.
  specialize (E1 i). specialize (E3 i). specialize (E4 i). specialize (E5 i).
  rewrite Hi in *. rewrite <- E1, <- E3. auto.
Qed.

Lemma heun_updates_original_state_witness :
  exists s',
    take_step 0 Example.push 3 (fun _ => pt_zero 0) (Example.ratio 1 20)
      no_gen_forces Example.solver3 = Some s' /\
    let '(dX0, sum_v0, nNBs0, mean0) :=
      rhs 0 (compute_pwints 0 Example.push (fun _ => pt_zero 0)) no_gen_forces
        (d_n Example.solver3) (d_X Example.solver3) (d_dX Example.solver3)
        (d_old_v Example.solver3) (d_sum_v Example.solver3)
        (d_nNBs Example.solver3) in
    let '(dX1, _, _, mean1) :=
      rhs 0 (compute_pwints 0 Example.push (fun _ => pt_zero 0)) no_gen_forces
        (d_n Example.solver3) (d_X1 s') (d_dX1 Example.solver3)
        (d_old_v Example.solver3) sum_v0 nNBs0 in
    let dX0' := drift dX0.[1] mean0 in
    let dX1' := drift dX1.[1] mean1 in
    (d_dX s').[1] = dX0' /\ (d_dX1 s').[1] = dX1' /\
    (d_X s').[1] =
      pt_add (d_X Example.solver3).[1]
        (pt_scale (pt_scale (pt_add dX0' dX1') fhalf) (Example.ratio 1 20)) /\
    (d_old_v s').[1] =
      mkfloat3 (fmul (fadd (px dX0') (px dX1')) fhalf)
               (fmul (fadd (py dX0') (py dX1')) fhalf)
               (fmul (fadd (pz dX0') (pz dX1')) fhalf).
Proof.
  apply (heun_updates_original_state 0 Example.push 3 (fun _ => pt_zero 0)
           (Example.ratio 1 20) no_gen_forces Example.solver3 1).
  - intros X dX. reflexivity.
  - simpl. lia.
  - unfold roomy. simpl. lia.
  - simpl. lia.
Defined.

Section ExactStages.

Open Scope R_scope.

Variable dim : nat.
Variable pw_int : @Pairwise_interaction R.
Variable n_max : Z.
Variable sh0 : nat -> Pt R.

(** Both stages leave a derivative whose x, y and z sum to zero over the
    live entities. *)
Lemma take_step_sums dt gen_forces (s s' : N2n_solver) :
  keeps_length gen_forces -> (1 <= d_n s <= n_max)%Z -> roomy s ->
  take_step dim pw_int n_max sh0 dt gen_forces s = Some s' ->
  let n := Z.to_nat (d_n s) in
  (sum_of px (firstn n (d_dX s')) = 0 /\
   sum_of py (firstn n (d_dX s')) = 0 /\
   sum_of pz (firstn n (d_dX s')) = 0) /\
  (sum_of px (firstn n (d_dX1 s')) = 0 /\
   sum_of py (firstn n (d_dX1 s')) = 0 /\
   sum_of pz (firstn n (d_dX1 s')) = 0).
Proof.
  intros Hg Hn Hr E.
  destruct (take_step_spec dim pw_int n_max sh0 dt gen_forces s Hg (proj2 Hn) Hr)
    as (s'' & E' & H).
  rewrite E in E'. injection E' as <-. cbv zeta in H.
  destruct Hr as (R1 & R2 & R3 & R4 & R5 & R6 & R7).
  pose proof (rhs_spec dim (compute_pwints dim pw_int sh0) gen_forces (d_n s)
                (d_X s) (d_dX s) (d_old_v s) (d_sum_v s) (d_nNBs s)
                (compute_pwints_keep_length dim pw_int sh0) Hg R2 R6 R7) as P0.
  destruct (rhs _ _ _ _ (d_X s) _ _ _ _) as [[[dX0 sum_v0] nNBs0] mean0].
  destruct P0 as (L1 & L2 & L3 & M0).
  pose proof (rhs_spec dim (compute_pwints dim pw_int sh0) gen_forces (d_n s)
                (d_X1 s') (d_dX1 s) (d_old_v s) sum_v0 nNBs0
                (compute_pwints_keep_length dim pw_int sh0) Hg R4) as P1.
  destruct (rhs _ _ _ _ (d_X1 s') _ _ _ _) as [[[dX1 sum_v1] nNBs1] mean1].
  destruct P1 as (L4 & L5 & L6 & M1); try lia.
  destruct H as (_ & _ & _ & B1 & B2 & E1 & _ & E3 & _).
  cbv zeta. split.
  - apply (drift_sums_zero dim (d_n s) dX0); try lia.
    now rewrite <- M0.
  - apply (drift_sums_zero dim (d_n s) dX1); try lia.
    now rewrite <- M1.
Qed.

End ExactStages.

(** C3.  In exact arithmetic, for every live count [n >= 1] and whatever
    derivative the evaluator and the generic forces produce, the x, y and
    z members of the derivative left by the subtraction of the mean sum to
    zero over the live entities, in the predictor and in the corrector
    stage, and these are the derivatives that move the positions. *)
Theorem positional_drift_is_zero (dim : nat) (pw_int : @Pairwise_interaction R)
    (n_max : Z) (sh0 : nat -> Pt R) (dt : R) (gen_forces : @Generic_forces R)
    (s : N2n_solver) :
  keeps_length gen_forces -> (1 <= d_n s <= n_max)%Z -> roomy s ->
  exists s',
    take_step dim pw_int n_max sh0 dt gen_forces s = Some s' /\
    let n := Z.to_nat (d_n s) in
    (sum_of px (firstn n (d_dX s')) = 0 /\
     sum_of py (firstn n (d_dX s')) = 0 /\
     sum_of pz (firstn n (d_dX s')) = 0)%R /\
    (sum_of px (firstn n (d_dX1 s')) = 0 /\
     sum_of py (firstn n (d_dX1 s')) = 0 /\
     sum_of pz (firstn n (d_dX1 s')) = 0)%R /\
    (forall i, i < n ->
       (d_X1 s').[i] = pt_add (d_X s).[i] (pt_scale (d_dX s').[i] dt)) /\
    (forall i, i < n ->
       (d_X s').[i] =
       pt_add (d_X s).[i]
         (pt_scale (pt_scale (pt_add (d_dX s').[i] (d_dX1 s').[i]) fhalf) dt)).
Proof.
  intros Hg Hn Hr.
  destruct (take_step_spec dim pw_int n_max sh0 dt gen_forces s Hg (proj2 Hn) Hr)
    as (s' & E & H).
  exists s'. split; [exact E|].
  destruct (take_step_sums dim pw_int n_max sh0 dt gen_forces s s' Hg Hn Hr E)
    as [S0 S1].
  cbv zeta in *.
  destruct (rhs _ _ _ _ (d_X s) _ _ _ _) as [[[dX0 sum_v0] nNBs0] mean0].
  destruct (rhs _ _ _ _ (d_X1 s') _ _ _ _) as [[[dX1 sum_v1] nNBs1] mean1].
  destruct H as (_ & _ & _ & _ & _ & _ & E2 & _ & E4 & _).
  repeat split; try apply S0; try apply S1.
  - intros i Hi. rewrite E2. apply Nat.ltb_lt in Hi. now rewrite Hi.
  - intros i Hi. rewrite E4. apply Nat.ltb_lt in Hi. now rewrite Hi.
Qed.

Lemma positional_drift_is_zero_witness :
  exists s',
    take_step 0 Example.push_r 2 (fun _ => pt_zero 0) (1 / 20)%R no_gen_forces
      Example.solver2r = Some s' /\
    let n := Z.to_nat (d_n Example.solver2r) in
    (sum_of px (firstn n (d_dX s')) = 0 /\
     sum_of py (firstn n (d_dX s')) = 0 /\
     sum_of pz (firstn n (d_dX s')) = 0)%R /\
    (sum_of px (firstn n (d_dX1 s')) = 0 /\
     sum_of py (firstn n (d_dX1 s')) = 0 /\
     sum_of pz (firstn n (d_dX1 s')) = 0)%R /\
    (forall i, i < n ->
       (d_X1 s').[i] =
       pt_add (d_X Example.solver2r).[i] (pt_scale (d_dX s').[i] (1 / 20)%R)) /\
    (forall i, i < n ->
       (d_X s').[i] =
       pt_add (d_X Example.solver2r).[i]
         (pt_scale (pt_scale (pt_add (d_dX s').[i] (d_dX1 s').[i]) fhalf) (1 / 20)%R)).
Proof.
  apply (positional_drift_is_zero 0 Example.push_r 2 (fun _ => pt_zero 0) (1 / 20)%R
           no_gen_forces Example.solver2r).
  - intros X dX. reflexivity.
  - simpl. lia.
  - unfold roomy. simpl. lia.
Defined.

(** C2, as the code has it.  In each stage the mean of the derivative is
    taken over the live entities and over all members, but only its x, y
    and z are subtracted: these three members then sum to zero over the
    live entities (exact arithmetic), while every other member of the
    derivative is left as the evaluation produced it. *)
Theorem drift_removal_is_positional (dim : nat) (pw_int : @Pairwise_interaction R)
    (n_max : Z) (sh0 : nat -> Pt R) (dt : R) (gen_forces : @Generic_forces R)
    (s : N2n_solver) :
  keeps_length gen_forces -> (1 <= d_n s <= n_max)%Z -> roomy s ->
  exists s',
    take_step dim pw_int n_max sh0 dt gen_forces s = Some s' /\
    let n := Z.to_nat (d_n s) in
    let '(dX0, sum_v0, nNBs0, mean0) :=
      rhs dim (compute_pwints dim pw_int sh0) gen_forces (d_n s) (d_X s) (d_dX s)
        (d_old_v s) (d_sum_v s) (d_nNBs s) in
    let '(dX1, _, _, mean1) :=
      rhs dim (compute_pwints dim pw_int sh0) gen_forces (d_n s) (d_X1 s') (d_dX1 s)
        (d_old_v s) sum_v0 nNBs0 in
    mean0 = pt_div (reduce dX0 n (pt_zero dim)) (IZR (d_n s)) /\
    mean1 = pt_div (reduce dX1 n (pt_zero dim)) (IZR (d_n s)) /\
    (forall i, i < n ->
       (d_dX s').[i] =
       mkPt (px dX0.[i] - px mean0)%R (py dX0.[i] - py mean0)%R
            (pz dX0.[i] - pz mean0)%R (aux dX0.[i])) /\
    (forall i, i < n ->
       (d_dX1 s').[i] =
       mkPt (px dX1.[i] - px mean1)%R (py dX1.[i] - py mean1)%R
            (pz dX1.[i] - pz mean1)%R (aux dX1.[i])) /\
    (sum_of px (firstn n (d_dX s')) = 0 /\
     sum_of py (firstn n (d_dX s')) = 0 /\
     sum_of pz (firstn n (d_dX s')) = 0)%R /\
    (sum_of px (firstn n (d_dX1 s')) = 0 /\
     sum_of py (firstn n (d_dX1 s')) = 0 /\
     sum_of pz (firstn n (d_dX1 s')) = 0)%R.
Proof.
  intros Hg Hn Hr.
  destruct (take_step_spec dim pw_int n_max sh0 dt gen_forces s Hg (proj2 Hn) Hr)
    as (s' & E & H).
  exists s'. split; [exact E|].
  destruct (take_step_sums dim pw_int n_max sh0 dt gen_forces s s' Hg Hn Hr E)
    as [S0 S1].
  cbv zeta in *.
  destruct Hr as (R1 & R2 & R3 & R4 & R5 & R6 & R7).
  pose proof (rhs_spec dim (compute_pwints dim pw_int sh0) gen_forces (d_n s)
                (d_X s) (d_dX s) (d_old_v s) (d_sum_v s) (d_nNBs s)
                (compute_pwints_keep_length dim pw_int sh0) Hg R2 R6 R7) as P0.
  destruct (rhs _ _ _ _ (d_X s) _ _ _ _) as [[[dX0 sum_v0] nNBs0] mean0].
  destruct P0 as (L1 & L2 & L3 & M0).
  pose proof (rhs_spec dim (compute_pwints dim pw_int sh0) gen_forces (d_n s)
                (d_X1 s') (d_dX1 s) (d_old_v s) sum_v0 nNBs0
                (compute_pwints_keep_length dim pw_int sh0) Hg R4) as P1.
  destruct (rhs _ _ _ _ (d_X1 s') _ _ _ _) as [[[dX1 sum_v1] nNBs1] mean1].
  destruct P1 as (L4 & L5 & L6 & M1); try lia.
  destruct H as (_ & _ & _ & _ & _ & E1 & _ & E3 & _).
  split; [exact M0|]. split; [exact M1|].
  repeat split; try apply S0; try apply S1.
  - intros i Hi. rewrite E1. apply Nat.ltb_lt in Hi. now rewrite Hi.
  - intros i Hi. rewrite E3. apply Nat.ltb_lt in Hi. now rewrite Hi.
Qed.

Lemma drift_removal_is_positional_witness :
  exists s',
    take_step 0 Example.push_r 2 (fun _ => pt_zero 0) (1 / 20)%R no_gen_forces
      Example.solver2r = Some s' /\
    let n := Z.to_nat (d_n Example.solver2r) in
    let '(dX0, sum_v0, nNBs0, mean0) :=
      rhs 0 (compute_pwints 0 Example.push_r (fun _ => pt_zero 0)) no_gen_forces
        (d_n Example.solver2r) (d_X Example.solver2r) (d_dX Example.solver2r)
        (d_old_v Example.solver2r) (d_sum_v Example.solver2r)
        (d_nNBs Example.solver2r) in
    let '(dX1, _, _, mean1) :=
      rhs 0 (compute_pwints 0 Example.push_r (fun _ => pt_zero 0)) no_gen_forces
        (d_n Example.solver2r) (d_X1 s') (d_dX1 Example.solver2r)
        (d_old_v Example.solver2r) sum_v0 nNBs0 in
    mean0 = pt_div (reduce dX0 n (pt_zero 0)) (IZR (d_n Example.solver2r)) /\
    mean1 = pt_div (reduce dX1 n (pt_zero 0)) (IZR (d_n Example.solver2r)) /\
    (forall i, i < n ->
       (d_dX s').[i] =
       mkPt (px dX0.[i] - px mean0)%R (py dX0.[i] - py mean0)%R
            (pz dX0.[i] - pz mean0)%R (aux dX0.[i])) /\
    (forall i, i < n ->
       (d_dX1 s').[i] =
       mkPt (px dX1.[i] - px mean1)%R (py dX1.[i] - py mean1)%R
            (pz dX1.[i] - pz mean1)%R (aux dX1.[i])) /\
    (sum_of px (firstn n (d_dX s')) = 0 /\
     sum_of py (firstn n (d_dX s')) = 0 /\
     sum_of pz (firstn n (d_dX s')) = 0)%R /\
    (sum_of px (firstn n (d_dX1 s')) = 0 /\
     sum_of py (firstn n (d_dX1 s')) = 0 /\
     sum_of pz (firstn n (d_dX1 s')) = 0)%R.
Proof.
  apply (drift_removal_is_positional 0 Example.push_r 2 (fun _ => pt_zero 0)
           (1 / 20)%R no_gen_forces Example.solver2r).
  - intros X dX. reflexivity.
  - simpl. lia.
  - unfold roomy. simpl. lia.
Defined.

(** C2 as stated fails: with two bolls whose interaction feeds a fourth
    variable at rate 1, that member of the derivative still sums to 2
    after the drift removal of the predictor stage. *)
Lemma drift_removal_skips_other_members :
  exists s',
    take_step 1 Example.source 2 (fun _ => pt_zero 1) (Example.ratio 1 20)
      no_gen_forces Example.solver2w = Some s' /\
    sum_of (fun p => (aux p).[0]) (firstn 2 (d_dX s')) = Example.f32 2 /\
    sum_of (fun p => (aux p).[0]) (firstn 2 (d_dX s')) <> fzero.
Proof.
  eexists. split; [vm_compute; reflexivity|].
  split; [vm_compute; reflexivity | vm_compute; discriminate].
Qed.

(** ** The mirrors of a [Solution] *)



(** ** The mean velocity of the neighbours *)

Lemma binary32_div_by_zero_not_finite (a b : spec_float) :
  Binary32.is_finite (Binary32.add a (Binary32.div b (Binary32.of_Z 0))) = false.
Proof.
  change (Binary32.of_Z 0) with (S754_zero false).
  destruct a as [[|]|[|]| |[|] ma ea], b as [[|]|[|]| |[|] mb eb]; reflexivity.
Qed.

Lemma binary32_zero_by_zero_nan (a : spec_float) (sb : bool) :
  Binary32.add a (Binary32.div (S754_zero sb) (Binary32.of_Z 0)) = S754_nan.
Proof.
  change (Binary32.of_Z 0) with (S754_zero false).
  destruct a as [[|]|[|]| |[|] ma ea], sb; reflexivity.
Qed.




(** ** Building the lattice *)

Section CubeIds.

Context {F : Type} {SF : Scalar F}.
Variable n : nat.
Variable X : list (Pt F).
Variable cube_size : F.
Variable ids : nat -> Z.

Hypothesis ids_spec : forall i, i < n -> cube_id_of X.[i] cube_size = Some (ids i).

Lemma cube_ids_launch (cube_id : list Z) (cell_id : list nat) :
  n <= length cube_id -> n <= length cell_id ->
  exists cube_id' cell_id',
    launch (blocks n) 32
      (fun blockIdx threadIdx =>
         compute_cube_ids n X cube_size (blockIdx * 32 + threadIdx))
      (Some (cube_id, cell_id)) = Some (cube_id', cell_id') /\
    length cube_id' = length cube_id /\ length cell_id' = length cell_id /\
    (forall i, cube_id'.[i] = if i <? n then ids i else cube_id.[i]) /\
    (forall i, cell_id'.[i] = if i <? n then i else cell_id.[i]).
Proof.
  intros H1 H2. rewrite launch_flat.
  pose proof
    (fold_seq_inv
       (fun m st =>
          exists cube_id' cell_id',
            st = Some (cube_id', cell_id') /\
            length cube_id' = length cube_id /\ length cell_id' = length cell_id /\
            (forall i, cube_id'.[i] = if (i <? m) && (i <? n) then ids i
                                      else cube_id.[i]) /\
            (forall i, cell_id'.[i] = if (i <? m) && (i <? n) then i else cell_id.[i]))
       (fun i st => compute_cube_ids n X cube_size i st) (blocks n * 32)
       (Some (cube_id, cell_id))) as H.
  cbv beta in H. destruct H as (a & b & E & L1 & L2 & E1 & E2).
  - exists cube_id, cell_id. repeat split; intros; cmp.
  - intros i st _ (a & b & -> & L1 & L2 & E1 & E2). unfold compute_cube_ids.
    destruct (Nat.leb_spec n i) as [Hi|Hi].
    + exists a, b. repeat split; auto; intros j; [rewrite E1 | rewrite E2]; cmp.
    + rewrite ids_spec by assumption.
      eexists _, _. split; [reflexivity|]. rewrite !length_upd.
      repeat split; auto; intros j; rewrite rd_upd;
        [rewrite E1, L1 | rewrite E2, L2];
        destruct (Nat.eqb_spec i j) as [<-|Hne]; cmp.
  - exists a, b. pose proof (blocks_cover n).
    repeat split; auto; intros i; [rewrite E1 | rewrite E2]; cmp.
Qed.

End CubeIds.

Section Ranges.

Variable n : nat.
Variable K : list Z.
Variable L : nat.

Hypothesis K_sorted : forall p q, p <= q -> q < n -> (K.[p] <= K.[q])%Z.
Hypothesis K_range : forall p, p < n -> (0 <= K.[p] < Z.of_nat L)%Z.

Lemma start_end_thread i cube_start cube_end :
  i < n -> length cube_start = L -> length cube_end = L ->
  compute_cube_start_and_end n K i (Some (cube_start, cube_end))
  = Some (if is_first K i then upd cube_start (Z.to_nat K.[i]) (Z.of_nat i)
          else cube_start,
          if is_last n K i then upd cube_end (Z.to_nat K.[i]) (Z.of_nat i)
          else cube_end).
Proof.
  intros Hi Ls Le. unfold compute_cube_start_and_end, is_first, is_last, updZ.
  replace (n <=? i) with false by (symmetry; apply Nat.leb_gt; lia).
  pose proof (K_range i Hi) as R.
  rewrite Ls, Le.
  replace ((0 <=? K.[i])%Z && (K.[i] <? Z.of_nat L)%Z) with true
    by (symmetry; apply andb_true_iff; split; [apply Z.leb_le | apply Z.ltb_lt]; lia).
  destruct (Z.eqb _ _); destruct (Z.eqb _ _); reflexivity.
Qed.

(** Two positions that open a run of the same key coincide; likewise for
    the positions that close one. *)
Lemma first_unique p q :
  p < n -> q < n -> is_first K p = true -> is_first K q = true ->
  K.[p] = K.[q] -> p = q.
Proof.
  assert (G : forall p q, p < q -> q < n -> is_first K q = true -> K.[p] <> K.[q]).
  { intros a b Hab Hb Fb E. unfold is_first in Fb.
    replace (0 <? b) with true in Fb by (symmetry; apply Nat.ltb_lt; lia).
    apply negb_true_iff, Z.eqb_neq in Fb.
    pose proof (K_sorted a (b - 1)). pose proof (K_sorted (b - 1) b). lia. }
  intros Hp Hq Fp Fq E.
  destruct (Nat.lt_trichotomy p q) as [H|[H|H]]; auto.
  - now apply G in E.
  - symmetry in E. now apply G in E.
Qed.

Lemma last_unique p q :
  p < n -> q < n -> is_last n K p = true -> is_last n K q = true ->
  K.[p] = K.[q] -> p = q.
Proof.
  assert (G : forall p q, p < q -> q < n -> is_last n K p = true -> K.[p] <> K.[q]).
  { intros a b Hab Hb Fa E. unfold is_last in Fa.
    replace (a <? n - 1) with true in Fa by (symmetry; apply Nat.ltb_lt; lia).
    apply negb_true_iff, Z.eqb_neq in Fa.
    pose proof (K_sorted a (a + 1)). pose proof (K_sorted (a + 1) b). lia. }
  intros Hp Hq Fp Fq E.
  destruct (Nat.lt_trichotomy p q) as [H|[H|H]]; auto.
  - now apply G in E.
  - symmetry in E. now apply G in E.
Qed.

Lemma start_end_launch (start0 end0 : list Z) :
  length start0 = L -> length end0 = L ->
  exists cube_start cube_end,
    launch (blocks n) 32
      (fun blockIdx threadIdx =>
         compute_cube_start_and_end n K (blockIdx * 32 + threadIdx))
      (Some (start0, end0)) = Some (cube_start, cube_end) /\
    length cube_start = L /\ length cube_end = L /\
    (forall p, p < n -> is_first K p = true ->
               cube_start.[Z.to_nat K.[p]] = Z.of_nat p) /\
    (forall c, (forall p, p < n -> is_first K p = true -> K.[p] <> Z.of_nat c) ->
               cube_start.[c] = start0.[c]) /\
    (forall p, p < n -> is_last n K p = true ->
               cube_end.[Z.to_nat K.[p]] = Z.of_nat p) /\
    (forall c, (forall p, p < n -> is_last n K p = true -> K.[p] <> Z.of_nat c) ->
               cube_end.[c] = end0.[c]).
Proof.
  intros Ls Le. rewrite launch_flat.
  pose proof
    (fold_seq_inv
       (fun m st =>
          exists cube_start cube_end,
            st = Some (cube_start, cube_end) /\
            length cube_start = L /\ length cube_end = L /\
            (forall p, p < m -> p < n -> is_first K p = true ->
                       cube_start.[Z.to_nat K.[p]] = Z.of_nat p) /\
            (forall c, (forall p, p < m -> p < n -> is_first K p = true ->
                                  K.[p] <> Z.of_nat c) ->
                       cube_start.[c] = start0.[c]) /\
            (forall p, p < m -> p < n -> is_last n K p = true ->
                       cube_end.[Z.to_nat K.[p]] = Z.of_nat p) /\
            (forall c, (forall p, p < m -> p < n -> is_last n K p = true ->
                                  K.[p] <> Z.of_nat c) ->
                       cube_end.[c] = end0.[c]))
       (fun i st => compute_cube_start_and_end n K i st) (blocks n * 32)
       (Some (start0, end0))) as H.
  cbv beta in H. destruct H as (a & b & E & L1 & L2 & S1 & S2 & E1 & E2).
  - exists start0, end0.
    split; [reflexivity|]. split; [exact Ls|]. split; [exact Le|].
    split; [|split; [|split]]; auto; intros; lia.
  - intros i st _ (a & b & -> & L1 & L2 & S1 & S2 & E1 & E2).
    destruct (Nat.lt_ge_cases i n) as [Hi|Hi].
    + rewrite start_end_thread by assumption.
      pose proof (K_range i Hi) as Ri.
      eexists _, _. split; [reflexivity|].
      split; [destruct (is_first K i); rewrite ?length_upd; assumption|].
      split; [destruct (is_last n K i); rewrite ?length_upd; assumption|].
      split; [|split; [|split]].
      * intros p Hp Hpn Fp.
        destruct (Nat.eq_dec p i) as [->|Hne].
        -- rewrite Fp. apply rd_upd_eq. lia.
        -- destruct (is_first K i) eqn:Fi; [|apply S1; auto; lia].
           rewrite rd_upd_neq; [apply S1; auto; lia|].
           intros Ek. apply Hne. apply first_unique; auto.
           pose proof (K_range p Hpn). lia.
      * intros c Hc.
        destruct (is_first K i) eqn:Fi.
        -- rewrite rd_upd_neq.
           ++ apply S2. intros p Hp Hpn Fp. apply Hc; auto. lia.
           ++ intros Ek. apply (Hc i); auto; lia.
        -- apply S2. intros p Hp Hpn Fp. apply Hc; auto. lia.
      * intros p Hp Hpn Fp.
        destruct (Nat.eq_dec p i) as [->|Hne].
        -- rewrite Fp. apply rd_upd_eq. lia.
        -- destruct (is_last n K i) eqn:Fi; [|apply E1; auto; lia].
           rewrite rd_upd_neq; [apply E1; auto; lia|].
           intros Ek. apply Hne. apply last_unique; auto.
           pose proof (K_range p Hpn). lia.
      * intros c Hc.
        destruct (is_last n K i) eqn:Fi.
        -- rewrite rd_upd_neq.
           ++ apply E2. intros p Hp Hpn Fp. apply Hc; auto. lia.
           ++ intros Ek. apply (Hc i); auto; lia.
        -- apply E2. intros p Hp Hpn Fp. apply Hc; auto. lia.
    + unfold compute_cube_start_and_end.
      replace (n <=? i) with true by (symmetry; now apply Nat.leb_le).
      exists a, b.
      split; [reflexivity|]. split; [exact L1|]. split; [exact L2|].
      split; [|split; [|split]].
      * intros p Hp Hpn Fp. apply S1; auto; lia.
      * intros c Hc. apply S2. intros p Hp Hpn Fp. apply Hc; auto; lia.
      * intros p Hp Hpn Fp. apply E1; auto; lia.
      * intros c Hc. apply E2. intros p Hp Hpn Fp. apply Hc; auto; lia.
  - exists a, b. pose proof (blocks_cover n).
    split; [exact E|]. split; [exact L1|]. split; [exact L2|].
    split; [|split; [|split]].
    + intros p Hpn Fp. apply S1; auto; lia.
    + intros c Hc. apply S2. intros p Hp Hpn Fp. apply Hc; auto.
    + intros p Hpn Fp. apply E1; auto; lia.
    + intros c Hc. apply E2. intros p Hp Hpn Fp. apply Hc; auto.
Qed.

(** Every position belongs to a run that has a first and a last
    position. *)
Lemma run_first p :
  p < n -> exists s, s <= p /\ is_first K s = true /\ K.[s] = K.[p].
Proof.
  induction p as [|p IH]; intros Hp.
  - exists 0. repeat split; auto. unfold is_first. simpl.
    apply negb_true_iff, Z.eqb_neq. pose proof (K_range 0 Hp). lia.
  - destruct (is_first K (S p)) eqn:Fp.
    + exists (S p). auto.
    + destruct IH as (s & Hs & Fs & Es); [lia|].
      exists s. repeat split; auto. rewrite Es.
      unfold is_first in Fp. simpl in Fp.
      apply negb_false_iff, Z.eqb_eq in Fp. rewrite Nat.sub_0_r in Fp. auto.
Qed.

Lemma run_last p :
  p < n -> exists e, p <= e /\ e < n /\ is_last n K e = true /\ K.[e] = K.[p].
Proof.
  intros Hp. remember (n - p) as d eqn:Hd. revert p Hp Hd.
  induction d as [|d IH]; intros p Hp Hd; [lia|].
  destruct (is_last n K p) eqn:Fp.
  - exists p. auto.
  - unfold is_last in Fp. apply negb_false_iff, Z.eqb_eq in Fp.
    destruct (Nat.ltb_spec p (n - 1)) as [Hlt|Hge]; [|lia].
    destruct (IH (p + 1)) as (e & He & Hen & Fe & Ee); try lia.
    exists e. repeat split; auto; try lia; congruence.
Qed.

(** The ranges left in the two tables by [compute_cube_start_and_end],
    starting from tables filled with -1 and -2. *)
Lemma ranges_spec (start0 end0 : list Z) :
  length start0 = L -> length end0 = L ->
  (forall c, c < L -> start0.[c] = (- 1)%Z) ->
  (forall c, c < L -> end0.[c] = (- 2)%Z) ->
  exists cube_start cube_end,
    launch (blocks n) 32
      (fun blockIdx threadIdx =>
         compute_cube_start_and_end n K (blockIdx * 32 + threadIdx))
      (Some (start0, end0)) = Some (cube_start, cube_end) /\
    length cube_start = L /\ length cube_end = L /\
    (forall c, c < L ->
       forall k : Z,
         (cube_start.[c] <= k <= cube_end.[c])%Z <->
         ((0 <= k < Z.of_nat n)%Z /\ K.[Z.to_nat k] = Z.of_nat c)) /\
    (forall c, c < L ->
       (forall p, p < n -> K.[p] <> Z.of_nat c) ->
       cube_start.[c] = (- 1)%Z /\ cube_end.[c] = (- 2)%Z).
Proof.
  intros Ls Le H1 H2.
  destruct (start_end_launch start0 end0 Ls Le)
    as (a & b & E & L1 & L2 & S1 & S2 & E1 & E2).
  exists a, b. split; [exact E|]. split; [exact L1|]. split; [exact L2|].
  assert (Empty : forall c, c < L ->
            (forall p, p < n -> K.[p] <> Z.of_nat c) ->
            a.[c] = (- 1)%Z /\ b.[c] = (- 2)%Z).
  { intros c Hc Hno. split.
    - rewrite S2, H1; auto.
    - rewrite E2, H2; auto. }
  assert (Full : forall c p, p < n -> K.[p] = Z.of_nat c ->
            exists s e, s <= p /\ p <= e /\ e < n /\
                        K.[s] = Z.of_nat c /\ K.[e] = Z.of_nat c /\
                        a.[c] = Z.of_nat s /\ b.[c] = Z.of_nat e).
  { intros c p Hp Ec.
    destruct (run_first p Hp) as (s0 & Hs & Fs & Es).
    destruct (run_last p Hp) as (e0 & He & Hen & Fe & Ee).
    exists s0, e0. repeat split; auto; try congruence.
    - rewrite <- (S1 s0) by (auto; lia). f_equal. rewrite Es, Ec. now rewrite Nat2Z.id.
    - rewrite <- (E1 e0) by auto. f_equal. rewrite Ee, Ec. now rewrite Nat2Z.id. }
  split; [|exact Empty].
  intros c Hc k.
  destruct (existsb (fun p => (K.[p] =? Z.of_nat c)%Z) (seq 0 n)) eqn:Ex.
  - apply existsb_exists in Ex. destruct Ex as (p & Hp & Ep).
    apply in_seq in Hp. apply Z.eqb_eq in Ep.
    destruct (Full c p) as (s0 & e0 & Hs & He & Hen & Ks & Ke & As & Bs);
      [lia | assumption |].
    split.
    + intros [Hk1 Hk2]. rewrite As in Hk1. rewrite Bs in Hk2.
      split; [lia|].
      pose proof (K_sorted s0 (Z.to_nat k)). pose proof (K_sorted (Z.to_nat k) e0).
      lia.
    + intros [Hk Ek].
      destruct (Full c (Z.to_nat k)) as (s1 & e1 & Hs1 & He1 & _ & _ & _ & As1 & Bs1);
        [lia | assumption |].
      rewrite As1, Bs1. lia.
  - assert (Hno : forall p, p < n -> K.[p] <> Z.of_nat c).
    { intros p Hp Ep.
      assert (Ex' : existsb (fun p => (K.[p] =? Z.of_nat c)%Z) (seq 0 n) = true).
      { apply existsb_exists. exists p. split; [apply in_seq; lia | now apply Z.eqb_eq]. }
      congruence. }
    destruct (Empty c Hc Hno) as [-> ->].
    split; [lia|]. intros [Hk Ek]. exfalso. apply (Hno (Z.to_nat k)); [lia | assumption].
Qed.

End Ranges.

Section ListFacts.

Context {A : Type} {D : Default A}.

Lemma firstn_rd (f : nat -> A) (l : list A) n :
  n <= length l -> (forall i, i < n -> l.[i] = f i) ->
  firstn n l = map f (seq 0 n).
Proof.
  intros Hn H. apply (nth_ext _ _ dflt (f 0)).
  - rewrite length_firstn, length_map, length_seq. lia.
  - intros i Hi. rewrite length_firstn in Hi.
    rewrite nth_firstn, map_nth.
    replace (i <? n) with true by (symmetry; apply Nat.ltb_lt; lia).
    rewrite seq_nth by lia. apply H. lia.
Qed.

Lemma rd_app1 (l1 l2 : list A) i : i < length l1 -> (l1 ++ l2).[i] = l1.[i].
Proof. intros H. unfold rd. now apply app_nth1. Qed.

Lemma rd_In (l : list A) i : i < length l -> In l.[i] l.
Proof. intros H. unfold rd. now apply nth_In. Qed.

Lemma In_rd (l : list A) a : In a l -> exists i, i < length l /\ l.[i] = a.
Proof. intros H. unfold rd. now apply In_nth. Qed.

Lemma rd_firstn (l : list A) n i : i < n -> (firstn n l).[i] = l.[i].
Proof.
  intros H. unfold rd. rewrite nth_firstn.
  now replace (i <? n) with true by (symmetry; now apply Nat.ltb_lt).
Qed.

End ListFacts.

Lemma sorted_rd (l : list Z) p q :
  Sorted Z.le l -> p <= q -> q < length l -> (l.[p] <= l.[q])%Z.
Proof.
  intros Hs. apply Sorted_StronglySorted in Hs; [|intros a b c; lia].
  revert p q. induction Hs as [|a l Hs IH Ha]; intros p q Hpq Hq; simpl in Hq.
  - lia.
  - destruct q as [|q].
    + replace p with 0 by lia. lia.
    + destruct p as [|p].
      * unfold rd. simpl. rewrite Forall_forall in Ha. apply Ha, nth_In. lia.
      * apply (IH p q); lia.
Qed.

Section Build.

Context {F : Type} {SF : Scalar F}.
Variable sort_by_key : list Z -> list nat -> list Z * list nat.
Variable n : nat.
Variable X : list (Pt F).
Variable cube_size : F.
Variable ids : nat -> Z.

Hypothesis sort_spec : sorts sort_by_key.
Hypothesis ids_spec : forall i, i < n -> cube_id_of X.[i] cube_size = Some (ids i).
Hypothesis ids_range : forall i, i < n -> (0 <= ids i < N_CUBES)%Z.

Lemma in_combine_ids k v :
  In (k, v) (combine (map ids (seq 0 n)) (seq 0 n)) -> k = ids v /\ v < n.
Proof.
  intros H. apply (In_nth _ _ (ids 0, 0)) in H. destruct H as (i & Hi & E).
  rewrite length_combine, length_map, length_seq, Nat.min_id in Hi.
  rewrite combine_nth in E by now rewrite length_map.
  rewrite map_nth, seq_nth in E by assumption.
  simpl in E. injection E as <- <-. auto.
Qed.

Lemma build_lattice_built (lat : Lattice) :
  n <= length (d_cube_id lat) -> n <= length (d_cell_id lat) ->
  length (d_cube_start lat) = Z.to_nat N_CUBES ->
  length (d_cube_end lat) = Z.to_nat N_CUBES ->
  exists lat',
    build_lattice sort_by_key n X cube_size lat = Some lat' /\
    built n ids lat' /\
    (forall p q, p <= q -> q < n -> ((d_cube_id lat').[p] <= (d_cube_id lat').[q])%Z).
Proof.
  intros H1 H2 H3 H4. unfold build_lattice.
  destruct (cube_ids_launch n X cube_size ids ids_spec (d_cube_id lat) (d_cell_id lat)
              H1 H2) as (cid & cell & -> & L1 & L2 & E1 & E2).
  unfold sort_prefix.
  assert (Fk : firstn n cid = map ids (seq 0 n)).
  { apply firstn_rd; [lia|]. intros i Hi. rewrite E1.
    now replace (i <? n) with true by (symmetry; now apply Nat.ltb_lt). }
  assert (Fv : firstn n cell = seq 0 n).
  { rewrite <- (map_id (seq 0 n)). apply firstn_rd; [lia|]. intros i Hi. rewrite E2.
    now replace (i <? n) with true by (symmetry; now apply Nat.ltb_lt). }
  rewrite Fk, Fv.
  pose proof (sort_spec (map ids (seq 0 n)) (seq 0 n)) as Hs.
  destruct (sort_by_key _ _) as [ks vs].
  destruct Hs as (Lk & Lv & Sk & Pk); [now rewrite length_map|].
  rewrite length_map, length_seq in Lk. rewrite length_seq in Lv.
  set (K := ks ++ skipn n cid). set (V := vs ++ skipn n cell).
  assert (Kp : forall p, p < n -> K.[p] = ks.[p]).
  { intros p Hp. unfold K. apply rd_app1. lia. }
  assert (Vp : forall p, p < n -> V.[p] = vs.[p]).
  { intros p Hp. unfold V. apply rd_app1. lia. }
  assert (KV : forall p, p < n -> K.[p] = ids V.[p] /\ V.[p] < n).
  { intros p Hp. rewrite Kp, Vp by assumption.
    apply in_combine_ids. apply (Permutation_in _ Pk).
    assert (E : (ks.[p], vs.[p]) = nth p (combine ks vs) (dflt, dflt)).
    { symmetry. apply combine_nth. lia. }
    rewrite E. apply nth_In. rewrite length_combine. lia. }
  assert (Ks : forall p q, p <= q -> q < n -> (K.[p] <= K.[q])%Z).
  { intros p q Hpq Hq. rewrite !Kp by lia. apply sorted_rd; auto. lia. }
  assert (Kr : forall p, p < n -> (0 <= K.[p] < Z.of_nat (Z.to_nat N_CUBES))%Z).
  { intros p Hp. destruct (KV p Hp) as [-> Hv].
    pose proof (ids_range _ Hv). lia. }
  destruct (ranges_spec n K (Z.to_nat N_CUBES) Ks Kr
              (fill (d_cube_start lat) (Z.to_nat N_CUBES) (- 1)%Z)
              (fill (d_cube_end lat) (Z.to_nat N_CUBES) (- 2)%Z))
    as (a & b & -> & La & Lb & R1 & R2).
  - now rewrite length_fill.
  - now rewrite length_fill.
  - intros c Hc. rewrite rd_fill by lia.
    now replace (c <? Z.to_nat N_CUBES) with true by (symmetry; now apply Nat.ltb_lt).
  - intros c Hc. rewrite rd_fill by lia.
    now replace (c <? Z.to_nat N_CUBES) with true by (symmetry; now apply Nat.ltb_lt).
  - eexists. split; [reflexivity|]. split; [|exact Ks].
    unfold built. cbn [d_cube_id d_cell_id d_cube_start d_cube_end].
    assert (LK : length K = length cid).
    { unfold K. rewrite length_app, length_skipn. lia. }
    assert (LV : length V = length cell).
    { unfold V. rewrite length_app, length_skipn. lia. }
    split; [lia|]. split; [lia|]. split; [exact La|]. split; [exact Lb|].
    split; [|split; [|split]].
    + unfold V. rewrite firstn_app, Lv, Nat.sub_diag, firstn_all2 by lia.
      simpl. rewrite app_nil_r.
      assert (Ev : vs = map snd (combine ks vs)).
      { clear - Lk Lv. assert (H : length ks = length vs) by lia. clear Lk Lv.
        revert vs H. induction ks as [|k ks IH]; intros [|v vs] H; simpl in *;
          try lia; auto. f_equal. apply IH. lia. }
      rewrite Ev. rewrite (Permutation_map snd Pk).
      assert (Es : forall l : list nat, map snd (combine (map ids l) l) = l).
      { induction l as [|x l IH]; simpl; [|rewrite IH]; reflexivity. }
      now rewrite Es.
    + intros p Hp. apply KV. assumption.
    + intros c Hc k. rewrite (R1 (Z.to_nat c)) by lia.
      rewrite Z2Nat.id by lia. reflexivity.
    + intros c Hc Hno. apply R2; [lia|].
      intros p Hp. rewrite Z2Nat.id by lia. now apply Hno.
Qed.

End Build.

Lemma in_loop_range (first last k : Z) :
  In k (loop_range first last) <-> (first <= k <= last)%Z.
Proof.
  unfold loop_range. rewrite in_map_iff. split.
  - intros (o & <- & Ho). apply in_seq in Ho. lia.
  - intros H. exists (Z.to_nat (k - first)). split; [lia|].
    apply in_seq. lia.
Qed.

Lemma NoDup_loop_range (first last : Z) : NoDup (loop_range first last).
Proof.
  unfold loop_range.
  apply Finite.Injective_map_NoDup; [|apply seq_NoDup].
  intros a b H. lia.
Qed.

(** *** The insertion sort is an admissible [sort_by_key] *)

Lemma insert_by_key_perm k v l : Permutation (insert_by_key k v l) ((k, v) :: l).
Proof.
  induction l as [|[k' v'] l IH]; simpl.
  - reflexivity.
  - destruct (k <? k')%Z.
    + reflexivity.
    + rewrite IH. apply perm_swap.
Qed.

Lemma insert_by_key_sorted k v l :
  Sorted Z.le (map fst l) -> Sorted Z.le (map fst (insert_by_key k v l)).
Proof.
  induction l as [|[k' v'] l IH]; simpl; intros Hs.
  - repeat constructor.
  - destruct (Z.ltb_spec k k').
    + simpl. constructor; [assumption|]. constructor. lia.
    + simpl. apply Sorted_inv in Hs. destruct Hs as [Hs Hd].
      constructor; [now apply IH|].
      destruct l as [|[k'' v''] l]; simpl.
      * constructor. lia.
      * destruct (Z.ltb_spec k k''); simpl; constructor; try lia.
        now inversion Hd.
Qed.

Lemma split_maps {A B} (l : list (A * B)) : List.split l = (map fst l, map snd l).
Proof.
  induction l as [|[a b] l IH]; simpl; [|rewrite IH]; reflexivity.
Qed.

Lemma combine_maps {A B} (l : list (A * B)) : combine (map fst l) (map snd l) = l.
Proof.
  induction l as [|[a b] l IH]; simpl; [|rewrite IH]; reflexivity.
Qed.

Lemma insertion_sort_pairs (c : list (Z * nat)) :
  let l := fold_right (fun kv l => insert_by_key (fst kv) (snd kv) l) [] c in
  Permutation l c /\ Sorted Z.le (map fst l).
Proof.
  induction c as [|[k v] c [IHp IHs]]; simpl.
  - split; constructor.
  - split.
    + rewrite insert_by_key_perm. apply perm_skip. exact IHp.
    + apply insert_by_key_sorted. exact IHs.
Qed.

Lemma insertion_sort_sorts : sorts insertion_sort_by_key.
Proof.
  intros keys values Hl. unfold insertion_sort_by_key.
  destruct (insertion_sort_pairs (combine keys values)) as [P S].
  rewrite split_maps.
  pose proof (Permutation_length P) as Len. rewrite length_combine in Len.
  rewrite !length_map, combine_maps. repeat split; auto; lia.
Qed.

(** C6.  When the cube id of every live point is in range,
    [build_lattice] succeeds; the cell ids list every live point once;
    every sorted position lies in the range of its own cube and of no
    other; the ranges hold live positions only; and a cube without point
    keeps [d_cube_start = -1], [d_cube_end = -2], a range over which the
    loop makes no step. *)
Theorem build_lattice_partitions {F} {SF : Scalar F}
    (sort_by_key : list Z -> list nat -> list Z * list nat) (n : nat)
    (X : list (Pt F)) (cube_size : F) (lat : Lattice) (ids : nat -> Z) :
  sorts sort_by_key ->
  (forall i, i < n -> cube_id_of X.[i] cube_size = Some (ids i)) ->
  (forall i, i < n -> (0 <= ids i < N_CUBES)%Z) ->
  n <= length (d_cube_id lat) -> n <= length (d_cell_id lat) ->
  length (d_cube_start lat) = Z.to_nat N_CUBES ->
  length (d_cube_end lat) = Z.to_nat N_CUBES ->
  exists lat',
    build_lattice sort_by_key n X cube_size lat = Some lat' /\
    Permutation (firstn n (d_cell_id lat')) (seq 0 n) /\
    (forall k, k < n ->
       (d_cube_id lat').[k] = ids (d_cell_id lat').[k] /\
       (0 <= (d_cube_id lat').[k] < N_CUBES)%Z) /\
    (forall k b, k < n -> (0 <= b < N_CUBES)%Z ->
       ((d_cube_start lat').[Z.to_nat b] <= Z.of_nat k
        <= (d_cube_end lat').[Z.to_nat b])%Z <->
       b = (d_cube_id lat').[k]) /\
    (forall b k, (0 <= b < N_CUBES)%Z ->
       In k (loop_range (d_cube_start lat').[Z.to_nat b]
               (d_cube_end lat').[Z.to_nat b]) ->
       (0 <= k < Z.of_nat n)%Z) /\
    (forall b, (0 <= b < N_CUBES)%Z ->
       (forall k, k < n -> (d_cube_id lat').[k] <> b) ->
       (d_cube_start lat').[Z.to_nat b] = (- 1)%Z /\
       (d_cube_end lat').[Z.to_nat b] = (- 2)%Z /\
       loop_range (d_cube_start lat').[Z.to_nat b] (d_cube_end lat').[Z.to_nat b] = []).
Proof.
  intros Hs Hi Hr H1 H2 H3 H4.
  destruct (build_lattice_built sort_by_key n X cube_size ids Hs Hi Hr lat H1 H2 H3 H4)
    as (lat' & E & B & _).
  exists lat'. split; [exact E|].
  destruct B as (_ & _ & _ & _ & P & KV & R1 & R2).
  assert (Vn : forall k, k < n -> (d_cell_id lat').[k] < n).
  { intros k Hk.
    assert (I : In (d_cell_id lat').[k] (firstn n (d_cell_id lat'))).
    { rewrite <- (rd_firstn (d_cell_id lat') n k Hk). apply rd_In.
      rewrite (Permutation_length P), length_seq. assumption. }
    apply (Permutation_in _ P), in_seq in I. lia. }
  split; [exact P|]. split; [|split; [|split]].
  - intros k Hk. split; [now apply KV|]. rewrite KV by assumption. apply Hr, Vn, Hk.
  - intros k b Hk Hb. rewrite (R1 b Hb (Z.of_nat k)), Nat2Z.id.
    split; [intros [_ <-]; reflexivity | intros ->; split; [lia | reflexivity]].
  - intros b k Hb Hin. apply in_loop_range in Hin. apply (R1 b Hb k) in Hin. tauto.
  - intros b Hb Hno. destruct (R2 b Hb Hno) as [-> ->]. repeat split.
Qed.

Lemma Example_ids3 (i : nat) :
  i < 3 -> cube_id_of Example.X3.[i] (Example.f32 1) = Some (Example.ids3 i).
Proof.
  intros Hi. destruct i as [|[|[|i]]]; try lia; vm_compute; reflexivity.
Qed.

Lemma Example_ids3_range (i : nat) : i < 3 -> (0 <= Example.ids3 i < N_CUBES)%Z.
Proof.
  intros Hi. destruct i as [|[|[|i]]]; try lia; vm_compute; split; congruence.
Qed.

Lemma build_lattice_partitions_witness :
  exists lat',
    build_lattice insertion_sort_by_key 3 Example.X3 (Example.f32 1) Example.lat3
    = Some lat' /\
    Permutation (firstn 3 (d_cell_id lat')) (seq 0 3) /\
    (forall k, k < 3 ->
       (d_cube_id lat').[k] = Example.ids3 (d_cell_id lat').[k] /\
       (0 <= (d_cube_id lat').[k] < N_CUBES)%Z) /\
    (forall k b, k < 3 -> (0 <= b < N_CUBES)%Z ->
       ((d_cube_start lat').[Z.to_nat b] <= Z.of_nat k
        <= (d_cube_end lat').[Z.to_nat b])%Z <->
       b = (d_cube_id lat').[k]) /\
    (forall b k, (0 <= b < N_CUBES)%Z ->
       In k (loop_range (d_cube_start lat').[Z.to_nat b]
               (d_cube_end lat').[Z.to_nat b]) ->
       (0 <= k < Z.of_nat 3)%Z) /\
    (forall b, (0 <= b < N_CUBES)%Z ->
       (forall k, k < 3 -> (d_cube_id lat').[k] <> b) ->
       (d_cube_start lat').[Z.to_nat b] = (- 1)%Z /\
       (d_cube_end lat').[Z.to_nat b] = (- 2)%Z /\
       loop_range (d_cube_start lat').[Z.to_nat b] (d_cube_end lat').[Z.to_nat b] = []).
Proof.
  apply (build_lattice_partitions insertion_sort_by_key 3 Example.X3 (Example.f32 1)
           Example.lat3 Example.ids3).
  - exact insertion_sort_sorts.
  - exact Example_ids3.
  - exact Example_ids3_range.
  - simpl. lia.
  - simpl. lia.
  - apply repeat_length.
  - apply repeat_length.
Defined.

(** ** The lattice evaluator *)

Lemma rdZ_rd {A} {D : Default A} (l : list A) (k : Z) :
  (0 <= k < Z.of_nat (length l))%Z -> rdZ l k = Some l.[Z.to_nat k].
Proof.
  intros H. unfold rdZ, rd.
  replace (k <? 0)%Z with false by (symmetry; apply Z.ltb_ge; lia).
  apply nth_error_nth'. lia.
Qed.

Section LatticeEval.

Context {F : Type} {SF : Scalar F}.
Variable dim : nat.
Variable pw_int : @Pairwise_interaction F.
Variable n : nat.
Variable X : list (Pt F).
Variable old_v : list (float3 F).
Variable lat : Lattice.
Variable ids : nat -> Z.

Hypothesis lat_built : built n ids lat.
Hypothesis cubes_in_range :
  forall p j, p < n -> j < 27 ->
    (0 <= (d_cube_id lat).[p] + d_moore_nhood.[j] < N_CUBES)%Z.

Lemma cell_id_live p : p < n -> (d_cell_id lat).[p] < n.
Proof.
  intros Hp. destruct lat_built as (_ & _ & _ & _ & P & _).
  assert (I : In (d_cell_id lat).[p] (firstn n (d_cell_id lat))).
  { rewrite <- (rd_firstn (d_cell_id lat) n p Hp). apply rd_In.
    rewrite (Permutation_length P), length_seq. assumption. }
  apply (Permutation_in _ P), in_seq in I. lia.
Qed.

Lemma cell_id_injective p q :
  p < n -> q < n -> (d_cell_id lat).[p] = (d_cell_id lat).[q] -> p = q.
Proof.
  intros Hp Hq E. destruct lat_built as (_ & _ & _ & _ & P & _).
  assert (N : NoDup (firstn n (d_cell_id lat))).
  { apply (Permutation_NoDup (Permutation_sym P)), seq_NoDup. }
  rewrite (NoDup_nth _ dflt) in N. apply N.
  - rewrite (Permutation_length P), length_seq. assumption.
  - rewrite (Permutation_length P), length_seq. assumption.
  - pose proof (rd_firstn (d_cell_id lat) n p Hp) as E1.
    pose proof (rd_firstn (d_cell_id lat) n q Hq) as E2.
    unfold rd in *. congruence.
Qed.

Lemma cell_id_onto i : i < n -> exists p, p < n /\ (d_cell_id lat).[p] = i.
Proof.
  intros Hi. destruct lat_built as (_ & _ & _ & _ & P & _).
  assert (I : In i (firstn n (d_cell_id lat))).
  { apply (Permutation_in _ (Permutation_sym P)), in_seq. lia. }
  apply In_rd in I. destruct I as (p & Hp & E).
  rewrite (Permutation_length P), length_seq in Hp.
  exists p. split; [assumption|]. now rewrite <- (rd_firstn _ n p Hp).
Qed.

(** The positions met in a cube of the neighbourhood are live. *)
Lemma cube_positions_live p j k :
  p < n -> j < 27 -> In k (cube_positions lat p j) ->
  (0 <= k < Z.of_nat n)%Z /\
  (d_cube_id lat).[Z.to_nat k] = ((d_cube_id lat).[p] + d_moore_nhood.[j])%Z.
Proof.
  intros Hp Hj Hk. unfold cube_positions in Hk. apply in_loop_range in Hk.
  destruct lat_built as (_ & _ & _ & _ & _ & _ & R1 & _).
  apply (R1 _ (cubes_in_range p j Hp Hj)) in Hk. exact Hk.
Qed.

(** The loop over [k]. *)
Lemma lattice_pair_fold p (ks : list Z) Fa sum_v nNBs :
  (forall k, In k ks -> (0 <= k < Z.of_nat (length (d_cell_id lat)))%Z) ->
  (d_cell_id lat).[p] < length sum_v -> (d_cell_id lat).[p] < length nNBs ->
  let ci := (d_cell_id lat).[p] in
  let js := map (fun k => (d_cell_id lat).[Z.to_nat k]) ks in
  fold_left (lattice_pair pw_int X old_v lat p) ks (Some (Fa, sum_v, nNBs))
  = Some (accF_close pw_int X ci js Fa,
          upd sum_v ci (accS X old_v ci js sum_v.[ci]),
          upd nNBs ci (accN X ci js nNBs.[ci])).
Proof.
  cbv zeta. revert Fa sum_v nNBs.
  induction ks as [|k ks IH]; intros Fa sum_v nNBs Hk Hs Hn.
  - simpl. now rewrite !upd_same.
  - cbn [fold_left map]. unfold lattice_pair at 2.
    rewrite rdZ_rd by (apply Hk; now left).
    unfold accF_close, accS, accN. cbn [fold_left].
    fold (accF_close pw_int X). fold (accS X old_v). fold (accN X).
    unfold CUBE_SIZE.
    change (fltb (norm3df _ _ _) (of_int 1))
      with (close X (d_cell_id lat).[p] (d_cell_id lat).[Z.to_nat k]).
    destruct (close X _ _).
    + rewrite IH by (rewrite ?length_upd; auto; intros; apply Hk; now right).
      rewrite !rd_upd_eq, !upd_upd by assumption. reflexivity.
    + rewrite IH by (auto; intros; apply Hk; now right). reflexivity.
Qed.

(** The loop over the cubes of the neighbourhood. *)
Lemma lattice_cube_fold p (js : list nat) Fa sum_v nNBs :
  p < n -> (forall j, In j js -> j < 27) ->
  (d_cell_id lat).[p] < length sum_v -> (d_cell_id lat).[p] < length nNBs ->
  let ci := (d_cell_id lat).[p] in
  let cands :=
    flat_map
      (fun j => map (fun k => (d_cell_id lat).[Z.to_nat k]) (cube_positions lat p j))
      js in
  fold_left (lattice_cube pw_int X old_v lat p) js (Some (Fa, sum_v, nNBs))
  = Some (accF_close pw_int X ci cands Fa,
          upd sum_v ci (accS X old_v ci cands sum_v.[ci]),
          upd nNBs ci (accN X ci cands nNBs.[ci])).
Proof.
  intros Hp. cbv zeta. revert Fa sum_v nNBs.
  induction js as [|j js IH]; intros Fa sum_v nNBs Hj Hs Hn.
  - simpl. now rewrite !upd_same.
  - cbn [fold_left flat_map]. unfold lattice_cube at 2.
    pose proof (cubes_in_range p j Hp (Hj j (or_introl eq_refl))) as Hc.
    destruct lat_built as (_ & Lv & Ls & Le & _).
    rewrite !rdZ_rd by lia.
    fold (cube_positions lat p j).
    rewrite lattice_pair_fold; auto.
    + rewrite IH by (rewrite ?length_upd; auto; intros; apply Hj; now right).
      rewrite !rd_upd_eq, !upd_upd by assumption.
      unfold accF_close, accS, accN. rewrite !fold_left_app. reflexivity.
    + intros k Hk. apply cube_positions_live in Hk; auto; [lia|].
      apply Hj. now left.
Qed.

(** One thread of [compute_lattice_pwints]. *)
Lemma lattice_thread p dX sum_v nNBs :
  p < n -> n <= length sum_v -> n <= length nNBs ->
  let ci := (d_cell_id lat).[p] in
  compute_lattice_pwints dim pw_int n X old_v lat p (Some (dX, sum_v, nNBs))
  = Some (upd dX ci (accF_close pw_int X ci (candidates lat p) (pt_zero dim)),
          upd sum_v ci (accS X old_v ci (candidates lat p) sum_v.[ci]),
          upd nNBs ci (accN X ci (candidates lat p) nNBs.[ci])).
Proof.
  intros Hp Hs Hn. cbv zeta. unfold compute_lattice_pwints.
  replace (n <=? p) with false by (symmetry; apply Nat.leb_gt; lia).
  pose proof (cell_id_live p Hp) as Hc.
  rewrite lattice_cube_fold; auto; try lia.
  intros j Hj. apply in_seq in Hj. lia.
Qed.

(** The launch of [compute_lattice_pwints]: the thread of the sorted
    position [p] leaves the three results of the point [d_cell_id[p]]. *)
Lemma lattice_launch dX sum_v nNBs :
  n <= length dX -> n <= length sum_v -> n <= length nNBs ->
  exists dX' sum_v' nNBs',
    launch ((n + TILE_SIZE - 1) / TILE_SIZE) TILE_SIZE
      (fun blockIdx threadIdx =>
         compute_lattice_pwints dim pw_int n X old_v lat
           (blockIdx * TILE_SIZE + threadIdx))
      (Some (dX, sum_v, nNBs)) = Some (dX', sum_v', nNBs') /\
    length dX' = length dX /\ length sum_v' = length sum_v /\
    length nNBs' = length nNBs /\
    forall p, p < n ->
      let ci := (d_cell_id lat).[p] in
      dX'.[ci] = accF_close pw_int X ci (candidates lat p) (pt_zero dim) /\
      sum_v'.[ci] = accS X old_v ci (candidates lat p) sum_v.[ci] /\
      nNBs'.[ci] = accN X ci (candidates lat p) nNBs.[ci].
Proof.
  intros H1 H2 H3. rewrite launch_flat.
  pose proof
    (fold_seq_inv
       (fun m st =>
          exists dX' sum_v' nNBs',
            st = Some (dX', sum_v', nNBs') /\
            length dX' = length dX /\ length sum_v' = length sum_v /\
            length nNBs' = length nNBs /\
            (forall p, p < m -> p < n ->
               let ci := (d_cell_id lat).[p] in
               dX'.[ci] = accF_close pw_int X ci (candidates lat p) (pt_zero dim) /\
               sum_v'.[ci] = accS X old_v ci (candidates lat p) sum_v.[ci] /\
               nNBs'.[ci] = accN X ci (candidates lat p) nNBs.[ci]) /\
            (forall p, m <= p -> p < n ->
               let ci := (d_cell_id lat).[p] in
               sum_v'.[ci] = sum_v.[ci] /\ nNBs'.[ci] = nNBs.[ci]))
       (fun i st => compute_lattice_pwints dim pw_int n X old_v lat i st)
       ((n + TILE_SIZE - 1) / TILE_SIZE * TILE_SIZE) (Some (dX, sum_v, nNBs))) as H.
  cbv beta in H. destruct H as (a & b & c & E & L1 & L2 & L3 & D & _).
  - exists dX, sum_v, nNBs. repeat split; auto; intros; lia.
  - intros i st _ (a & b & c & -> & L1 & L2 & L3 & D & U).
    destruct (Nat.lt_ge_cases i n) as [Hi|Hi].
    + rewrite lattice_thread by lia.
      pose proof (cell_id_live i Hi) as Hc.
      eexists _, _, _. split; [reflexivity|]. rewrite !length_upd.
      split; [assumption|]. split; [assumption|]. split; [assumption|]. split.
      * intros p Hp Hpn. cbv zeta.
        destruct (Nat.eq_dec p i) as [->|Hne].
        -- rewrite !rd_upd_eq by lia.
           destruct (U i) as [-> ->]; auto.
        -- rewrite !rd_upd_neq
             by (intros Ec; apply Hne; symmetry; now apply cell_id_injective).
           apply D; auto. lia.
      * intros p Hp Hpn. cbv zeta.
        rewrite !rd_upd_neq
          by (intros Ec; apply cell_id_injective in Ec; auto; lia).
        apply U; auto. lia.
    + unfold compute_lattice_pwints.
      replace (n <=? i) with true by (symmetry; now apply Nat.leb_le).
      exists a, b, c. split; [reflexivity|].
      split; [assumption|]. split; [assumption|]. split; [assumption|]. split.
      * intros p Hp Hpn. apply D; auto. lia.
      * intros p Hp Hpn. lia.
  - exists a, b, c. split; [exact E|].
    split; [assumption|]. split; [assumption|]. split; [assumption|].
    intros p Hp. apply D; auto.
    pose proof (blocks_cover n). unfold blocks in *. unfold TILE_SIZE. lia.
Qed.

End LatticeEval.

(** ** Geometry of the lattice in exact arithmetic *)

Section Geometry.

Open Scope R_scope.

Lemma exact_to_Z_IZR (k : Z) :
  in_int_range k = true -> Exact.to_Z (IZR k) = Some k.
Proof.
  intros H. unfold Exact.to_Z. rewrite ZfloorZ.
  assert (E : Zceil (IZR k) = k).
  { unfold Zceil. rewrite <- opp_IZR, ZfloorZ. lia. }
  rewrite E. destruct (Rle_dec 0 (IZR k)); now rewrite H.
Qed.

Lemma cube_coordinate_exact (a : R) :
  in_int_range (Zfloor a + LATTICE_SIZE / 2) = true ->
  cube_coordinate a = Some (Zfloor a + LATTICE_SIZE / 2)%Z.
Proof.
  intros H. unfold cube_coordinate, CUBE_SIZE.
  cbn [to_int fadd ffloor fdiv of_int exact]. unfold Exact.floor.
  replace (a / 1) with a by field.
  rewrite <- plus_IZR. now apply exact_to_Z_IZR.
Qed.

Lemma interior_coordinate_exact (a : R) :
  interior_coordinate a <-> (1 <= Zfloor a + LATTICE_SIZE / 2 <= LATTICE_SIZE - 2)%Z.
Proof.
  unfold interior_coordinate, cube_coordinate, CUBE_SIZE.
  cbn [to_int fadd ffloor fdiv of_int exact]. unfold Exact.floor.
  replace (a / 1) with a by field. rewrite <- plus_IZR.
  split.
  - intros (c & E & Hc). unfold Exact.to_Z in E. rewrite ZfloorZ in E.
    assert (E' : Zceil (IZR (Zfloor a + LATTICE_SIZE / 2))
                 = (Zfloor a + LATTICE_SIZE / 2)%Z).
    { unfold Zceil. rewrite <- opp_IZR, ZfloorZ. lia. }
    rewrite E' in E.
    destruct (Rle_dec _ _); destruct (in_int_range _); congruence.
  - intros H. exists (Zfloor a + LATTICE_SIZE / 2)%Z. split; [|exact H].
    apply exact_to_Z_IZR. unfold in_int_range, INT_MIN, INT_MAX, LATTICE_SIZE in *.
    apply andb_true_iff. split; [apply Z.leb_le | apply Z.leb_le]; lia.
Qed.

(** The cube id computed by [compute_cube_ids]. *)
Lemma cube_id_of_exact (p : Pt R) :
  in_int_range (cube_of p) = true -> cube_id_of p CUBE_SIZE = Some (cube_of p).
Proof.
  intros H. unfold cube_id_of, CUBE_SIZE, cube_of in *.
  cbn [to_int fadd fmul ffloor fdiv of_int exact]. unfold Exact.floor.
  replace (px p / 1) with (px p) by field.
  replace (py p / 1) with (py p) by field.
  replace (pz p / 1) with (pz p) by field.
  rewrite <- !plus_IZR, <- !mult_IZR, <- !plus_IZR.
  now apply exact_to_Z_IZR.
Qed.

Lemma lattice_cube_in_int_range (c : Z) :
  (0 <= c < N_CUBES)%Z -> in_int_range c = true.
Proof.
  intros H. unfold in_int_range, INT_MIN, INT_MAX, N_CUBES, LATTICE_SIZE in *.
  apply andb_true_iff. split; apply Z.leb_le; lia.
Qed.

(** The cube id computed by [compute_cube_ids] for an interior point. *)
Lemma cube_id_of_interior (p : Pt R) :
  interior p ->
  cube_id_of p CUBE_SIZE = Some (cube_of p) /\
  (1 <= Zfloor (px p) + LATTICE_SIZE / 2 <= LATTICE_SIZE - 2)%Z /\
  (1 <= Zfloor (py p) + LATTICE_SIZE / 2 <= LATTICE_SIZE - 2)%Z /\
  (1 <= Zfloor (pz p) + LATTICE_SIZE / 2 <= LATTICE_SIZE - 2)%Z.
Proof.
  intros (Hx & Hy & Hz).
  apply interior_coordinate_exact in Hx, Hy, Hz.
  split; [|auto].
  unfold cube_id_of, CUBE_SIZE, cube_of.
  cbn [to_int fadd fmul ffloor fdiv of_int exact]. unfold Exact.floor.
  replace (px p / 1) with (px p) by field.
  replace (py p / 1) with (py p) by field.
  replace (pz p / 1) with (pz p) by field.
  rewrite <- !plus_IZR, <- !mult_IZR, <- !plus_IZR.
  apply exact_to_Z_IZR.
  unfold in_int_range, INT_MIN, INT_MAX, LATTICE_SIZE in *.
  apply andb_true_iff. split; [apply Z.leb_le | apply Z.leb_le]; lia.
Qed.

Lemma exact_close (X : list (Pt R)) i j :
  close X i j = true <-> dist X i j < 1.
Proof.
  unfold close. cbn [fltb of_int exact]. unfold Exact.ltb.
  destruct (Rlt_dec _ _); split; auto; discriminate.
Qed.

(** Two points closer than 1 differ by less than 1 along each axis. *)
Lemma norm3_lt_1 (a b c : R) :
  Exact.norm3 a b c < 1 -> -1 < a < 1 /\ -1 < b < 1 /\ -1 < c < 1.
Proof.
  unfold Exact.norm3. intros H.
  assert (S : a * a + b * b + c * c < 1).
  { apply sqrt_lt_0_alt. now rewrite sqrt_1. }
  repeat split; nra.
Qed.

Lemma Zfloor_near (a b : R) : -1 < a - b < 1 -> (- 1 <= Zfloor a - Zfloor b <= 1)%Z.
Proof.
  intros H.
  pose proof (Zfloor_bound a) as Ha. pose proof (Zfloor_bound b) as Hb.
  assert (H1 : IZR (Zfloor a - Zfloor b) < 2) by (rewrite minus_IZR; lra).
  assert (H2 : -2 < IZR (Zfloor a - Zfloor b)) by (rewrite minus_IZR; lra).
  apply lt_IZR in H1. apply lt_IZR in H2. lia.
Qed.

(** The 27 offsets are those of the cubes that differ by at most one
    along each axis. *)
Lemma moore_offsets (dx dy dz : Z) :
  (- 1 <= dx <= 1)%Z -> (- 1 <= dy <= 1)%Z -> (- 1 <= dz <= 1)%Z ->
  In (dx + dy * LATTICE_SIZE + dz * LATTICE_SIZE * LATTICE_SIZE)%Z d_moore_nhood.
Proof.
  intros Hx Hy Hz.
  assert (Ex : dx = (- 1)%Z \/ dx = 0%Z \/ dx = 1%Z) by lia.
  assert (Ey : dy = (- 1)%Z \/ dy = 0%Z \/ dy = 1%Z) by lia.
  assert (Ez : dz = (- 1)%Z \/ dz = 0%Z \/ dz = 1%Z) by lia.
  destruct Ex as [-> | [-> | ->]], Ey as [-> | [-> | ->]], Ez as [-> | [-> | ->]];
    vm_compute; tauto.
Qed.

Lemma moore_bounded j :
  (j < 27)%nat ->
  (- (1 + LATTICE_SIZE + LATTICE_SIZE * LATTICE_SIZE) <= d_moore_nhood.[j]
   <= 1 + LATTICE_SIZE + LATTICE_SIZE * LATTICE_SIZE)%Z.
Proof.
  intros Hj.
  assert (A : Forall (fun m => (- 2551 <= m <= 2551)%Z) d_moore_nhood).
  { unfold d_moore_nhood. repeat constructor; lia. }
  rewrite Forall_forall in A. unfold LATTICE_SIZE.
  apply (A d_moore_nhood.[j]). apply rd_In. exact Hj.
Qed.

Lemma moore_NoDup : NoDup d_moore_nhood.
Proof.
  unfold d_moore_nhood.
  repeat (constructor; [simpl; intuition congruence|]). constructor.
Qed.

(** Points closer than 1 lie in cubes of the same Moore neighbourhood. *)
Lemma close_cubes (X : list (Pt R)) i j :
  close X i j = true ->
  exists m, (m < 27)%nat /\ cube_of X.[j] = (cube_of X.[i] + d_moore_nhood.[m])%Z.
Proof.
  intros H. apply exact_close in H. unfold dist in H.
  cbn [norm3df exact pt_sub px py pz fsub] in H.
  apply norm3_lt_1 in H. destruct H as (Hx & Hy & Hz).
  assert (Dx : (- 1 <= Zfloor (px X.[j]) - Zfloor (px X.[i]) <= 1)%Z)
    by (apply Zfloor_near; lra).
  assert (Dy : (- 1 <= Zfloor (py X.[j]) - Zfloor (py X.[i]) <= 1)%Z)
    by (apply Zfloor_near; lra).
  assert (Dz : (- 1 <= Zfloor (pz X.[j]) - Zfloor (pz X.[i]) <= 1)%Z)
    by (apply Zfloor_near; lra).
  pose proof (moore_offsets _ _ _ Dx Dy Dz) as I.
  apply In_rd in I. destruct I as (m & Hm & Em).
  exists m. split; [exact Hm|]. rewrite Em. unfold cube_of. lia.
Qed.

(** The cubes around an interior point are cubes of the lattice. *)
Lemma interior_neighbourhood (p : Pt R) j :
  interior p -> (j < 27)%nat -> (0 <= cube_of p + d_moore_nhood.[j] < N_CUBES)%Z.
Proof.
  intros Hp Hj. destruct (cube_id_of_interior p Hp) as (_ & Hx & Hy & Hz).
  pose proof (moore_bounded j Hj) as Hm.
  unfold cube_of, N_CUBES, LATTICE_SIZE in *.
  change (50 / 2)%Z with 25%Z in *. lia.
Qed.

Lemma interior_in_lattice (p : Pt R) : interior p -> (0 <= cube_of p < N_CUBES)%Z.
Proof.
  intros Hp. destruct (cube_id_of_interior p Hp) as (_ & Hx & Hy & Hz).
  unfold cube_of, N_CUBES, LATTICE_SIZE in *.
  change (50 / 2)%Z with 25%Z in *. lia.
Qed.

Lemma interior_lookups (X : list (Pt R)) (n : nat) :
  (forall i, (i < n)%nat -> interior X.[i]) -> lookups_inside X n.
Proof.
  intros H i j Hi Hj. apply interior_neighbourhood; auto.
Qed.

Lemma lookups_own_cube (X : list (Pt R)) (n i : nat) :
  lookups_inside X n -> (i < n)%nat -> (0 <= cube_of X.[i] < N_CUBES)%Z.
Proof.
  intros H Hi. pose proof (H i 1%nat Hi) as H1.
  change (d_moore_nhood.[1]) with 0%Z in H1. lia.
Qed.

End Geometry.

(** ** Sums in exact arithmetic do not depend on the order *)

Lemma fold_left_perm {S B : Type} (f : S -> B -> S) (l l' : list B) (a : S) :
  (forall a x y, f (f a x) y = f (f a y) x) ->
  Permutation l l' -> fold_left f l a = fold_left f l' a.
Proof.
  intros Hf P. revert a. induction P; intros a; simpl; auto.
  - now rewrite Hf.
  - now rewrite IHP1.
Qed.

Section ExactSums.

Open Scope R_scope.

Lemma zip_plus_swap (a x y : list R) :
  zip_with Rplus (zip_with Rplus a x) y = zip_with Rplus (zip_with Rplus a y) x.
Proof.
  revert x y; induction a as [|a0 a IH]; intros [|x0 x] [|y0 y]; simpl; auto.
  f_equal; [lra | apply IH].
Qed.

Lemma pt_add_swap (a x y : Pt R) : pt_add (pt_add a x) y = pt_add (pt_add a y) x.
Proof.
  unfold pt_add. cbn [px py pz aux fadd exact].
  rewrite zip_plus_swap. f_equal; lra.
Qed.

Lemma f3_add_swap (a x y : float3 R) : f3_add (f3_add a x) y = f3_add (f3_add a y) x.
Proof.
  unfold f3_add. cbn [vx vy vz fadd exact]. f_equal; lra.
Qed.

Lemma zip_plus_zeros (a : list R) dim :
  (length a <= dim)%nat -> zip_with Rplus a (repeat 0 dim) = a.
Proof.
  revert dim; induction a as [|a0 a IH]; intros [|dim] H; simpl in *; auto; try lia.
  f_equal; [lra | apply IH; lia].
Qed.

Lemma pt_add_zero (a : Pt R) dim :
  (length (aux a) <= dim)%nat -> pt_add a (pt_zero dim) = a.
Proof.
  intros H. destruct a as [x y z w]. unfold pt_add, pt_zero.
  cbn [px py pz aux fadd fzero exact] in *.
  rewrite zip_plus_zeros by assumption. f_equal; lra.
Qed.

Lemma zip_with_length (f : R -> R -> R) (a b : list R) :
  (length (zip_with f a b) <= length a)%nat.
Proof.
  revert b; induction a as [|a0 a IH]; intros [|b0 b]; simpl; auto; try lia.
  specialize (IH b). lia.
Qed.

Variable dim : nat.
Variable pw_int : @Pairwise_interaction R.
Variable X : list (Pt R).
Variable old_v : list (float3 R).

Lemma accF_perm i js js' a :
  Permutation js js' -> accF pw_int X i js a = accF pw_int X i js' a.
Proof.
  intros P. unfold accF. apply fold_left_perm; [|exact P].
  intros. apply pt_add_swap.
Qed.

(** The pairs on which the interaction vanishes can be left out. *)
Lemma accF_far i js a :
  (forall j, close X i j = false -> pw pw_int X i j = pt_zero dim) ->
  (length (aux a) <= dim)%nat ->
  accF pw_int X i js a = accF pw_int X i (filter (close X i) js) a.
Proof.
  intros Hfar. revert a. induction js as [|j js IH]; intros a Ha; [reflexivity|].
  unfold accF in *. cbn [filter fold_left].
  destruct (close X i j) eqn:C; cbn [fold_left].
  - apply IH. unfold pt_add. cbn [aux].
    pose proof (zip_with_length fadd (aux a) (aux (pw pw_int X i j))). lia.
  - rewrite (Hfar j C), pt_add_zero by assumption. now apply IH.
Qed.

Lemma accS_perm i js js' a :
  Permutation (neighbours X i js) (neighbours X i js') ->
  accS X old_v i js a = accS X old_v i js' a.
Proof.
  intros P. rewrite !accS_neighbours. apply fold_left_perm; [|exact P].
  intros. apply f3_add_swap.
Qed.

Lemma accN_perm i js js' a :
  Permutation (neighbours X i js) (neighbours X i js') ->
  accN X i js a = accN X i js' a.
Proof.
  intros P. rewrite !accN_count. now rewrite (Permutation_length P).
Qed.

End ExactSums.

Lemma accF_close_filter {F} {SF : Scalar F} (pw_int : @Pairwise_interaction F)
    (X : list (Pt F)) i js a :
  accF_close pw_int X i js a = accF pw_int X i (filter (close X i) js) a.
Proof.
  revert a. induction js as [|j js IH]; intros a; [reflexivity|].
  unfold accF_close, accF in *. cbn [filter fold_left].
  destruct (close X i j); cbn [fold_left]; apply IH.
Qed.

Lemma NoDup_flat_map {A B} (f : A -> list B) (l : list A) :
  NoDup l -> (forall a, In a l -> NoDup (f a)) ->
  (forall a a' b, In a l -> In a' l -> In b (f a) -> In b (f a') -> a = a') ->
  NoDup (flat_map f l).
Proof.
  induction l as [|a l IH]; intros Hl Hf Hd; simpl.
  - constructor.
  - inversion Hl as [|? ? Hna Hl']; subst.
    apply NoDup_app.
    + apply Hf. now left.
    + apply IH; auto.
      * intros a' Ha'. apply Hf. now right.
      * intros a1 a2 b H1 H2. apply Hd; now right.
    + intros b Hb Hb'. apply in_flat_map in Hb'. destruct Hb' as (a' & Ha' & Hb').
      apply Hna. rewrite (Hd a a' b); auto; [now left | now right].
Qed.

(** ** The candidates met by a thread of the lattice evaluator *)

Section Candidates.

Context {F : Type} {SF : Scalar F}.
Variable n : nat.
Variable lat : Lattice.
Variable ids : nat -> Z.

Hypothesis lat_built : built n ids lat.
Hypothesis cubes_in_range :
  forall p j, p < n -> j < 27 ->
    (0 <= (d_cube_id lat).[p] + d_moore_nhood.[j] < N_CUBES)%Z.

Lemma moore_injective j j' :
  j < 27 -> j' < 27 -> d_moore_nhood.[j] = d_moore_nhood.[j'] -> j = j'.
Proof.
  intros Hj Hj' E. pose proof moore_NoDup as N.
  rewrite (NoDup_nth _ dflt) in N. apply N; auto.
Qed.

Lemma in_candidates p x :
  In x (candidates lat p) <->
  exists j k, j < 27 /\ In k (cube_positions lat p j) /\
              x = (d_cell_id lat).[Z.to_nat k].
Proof.
  unfold candidates. rewrite in_flat_map. split.
  - intros (j & Hj & Hx). apply in_seq in Hj. apply in_map_iff in Hx.
    destruct Hx as (k & <- & Hk). exists j, k. repeat split; auto. lia.
  - intros (j & k & Hj & Hk & ->). exists j. split; [apply in_seq; lia|].
    apply in_map_iff. exists k. auto.
Qed.

(** Every candidate is a live point, met once. *)
Lemma candidates_live p x : p < n -> In x (candidates lat p) -> x < n.
Proof.
  intros Hp Hx. apply in_candidates in Hx. destruct Hx as (j & k & Hj & Hk & ->).
  destruct (cube_positions_live n lat ids lat_built cubes_in_range p j k Hp Hj Hk)
    as [Hk' _].
  apply (cell_id_live n lat ids lat_built). lia.
Qed.

Lemma candidates_NoDup p : p < n -> NoDup (candidates lat p).
Proof.
  intros Hp. unfold candidates. apply NoDup_flat_map.
  - apply seq_NoDup.
  - intros j Hj. apply in_seq in Hj.
    apply Finite.Injective_map_NoDup_in; [|apply NoDup_loop_range].
    intros k k' Hk Hk' E.
    destruct (cube_positions_live n lat ids lat_built cubes_in_range p j k Hp)
      as [Lk _]; auto; try lia.
    destruct (cube_positions_live n lat ids lat_built cubes_in_range p j k' Hp)
      as [Lk' _]; auto; try lia.
    apply (cell_id_injective n lat ids lat_built) in E; lia.
  - intros j j' x Hj Hj' Hx Hx'. apply in_seq in Hj, Hj'.
    apply in_map_iff in Hx, Hx'.
    destruct Hx as (k & E & Hk). destruct Hx' as (k' & E' & Hk').
    destruct (cube_positions_live n lat ids lat_built cubes_in_range p j k Hp)
      as [Lk Ck]; auto; try lia.
    destruct (cube_positions_live n lat ids lat_built cubes_in_range p j' k' Hp)
      as [Lk' Ck']; auto; try lia.
    assert (Ek : Z.to_nat k = Z.to_nat k').
    { apply (cell_id_injective n lat ids lat_built); try lia; congruence. }
    apply moore_injective; try lia. rewrite Ek in Ck. lia.
Qed.

(** A live point whose cube is one of the 27 cubes around the thread's
    own is a candidate. *)
Lemma candidates_complete p q j :
  p < n -> q < n -> j < 27 ->
  (d_cube_id lat).[q] = ((d_cube_id lat).[p] + d_moore_nhood.[j])%Z ->
  In (d_cell_id lat).[q] (candidates lat p).
Proof.
  intros Hp Hq Hj E. apply in_candidates. exists j, (Z.of_nat q).
  split; [exact Hj|]. split; [|now rewrite Nat2Z.id].
  unfold cube_positions. apply in_loop_range.
  destruct lat_built as (_ & _ & _ & _ & _ & _ & R1 & _).
  apply (R1 _ (cubes_in_range p j Hp Hj)). rewrite Nat2Z.id. split; [lia | exact E].
Qed.

(** The cube of a candidate is one of the 27 cubes. *)
Lemma candidates_sound p x :
  p < n -> In x (candidates lat p) ->
  exists j, j < 27 /\ ids x = (ids (d_cell_id lat).[p] + d_moore_nhood.[j])%Z.
Proof.
  intros Hp Hx. apply in_candidates in Hx. destruct Hx as (j & k & Hj & Hk & ->).
  destruct (cube_positions_live n lat ids lat_built cubes_in_range p j k Hp Hj Hk)
    as [Lk Ck].
  destruct lat_built as (_ & _ & _ & _ & _ & KV & _).
  exists j. split; [exact Hj|]. rewrite <- !KV by lia. exact Ck.
Qed.

End Candidates.

(** ** The two evaluators in exact arithmetic *)

Section ExactLattice.

Variable dim : nat.
Variable pw_int : @Pairwise_interaction R.
Variable sort_by_key : list Z -> list nat -> list Z * list nat.
Variable n : nat.
Variable X : list (Pt R).
Variable old_v : list (float3 R).

Hypothesis sort_spec : sorts sort_by_key.
Hypothesis X_inside : lookups_inside X n.

(** [build_lattice] succeeds, and every cube that a thread of the
    evaluator looks up is a cube of the lattice. *)
Lemma lattice_ready (lat : Lattice) :
  n <= length (d_cube_id lat) -> n <= length (d_cell_id lat) ->
  length (d_cube_start lat) = Z.to_nat N_CUBES ->
  length (d_cube_end lat) = Z.to_nat N_CUBES ->
  exists lat',
    build_lattice sort_by_key n X CUBE_SIZE lat = Some lat' /\
    built n (fun i => cube_of X.[i]) lat' /\
    (forall p j, p < n -> j < 27 ->
       (0 <= (d_cube_id lat').[p] + d_moore_nhood.[j] < N_CUBES)%Z).
Proof.
  intros H1 H2 H3 H4.
  destruct (build_lattice_built sort_by_key n X CUBE_SIZE (fun i => cube_of X.[i])
              sort_spec) with (lat := lat)
    as (lat' & E & B & _); auto.
  - intros i Hi. apply cube_id_of_exact, lattice_cube_in_int_range.
    now apply (lookups_own_cube X n).
  - intros i Hi. now apply (lookups_own_cube X n).
  - exists lat'. split; [exact E|]. split; [exact B|].
    intros p j Hp Hj.
    pose proof B as (_ & _ & _ & _ & P & KV & _).
    rewrite KV by assumption.
    assert (Hv : (d_cell_id lat').[p] < n).
    { assert (I : In (d_cell_id lat').[p] (firstn n (d_cell_id lat'))).
      { rewrite <- (rd_firstn (d_cell_id lat') n p Hp). apply rd_In.
        rewrite (Permutation_length P), length_seq. assumption. }
      apply (Permutation_in _ P), in_seq in I. lia. }
    now apply X_inside.
Qed.

(** The neighbours that a thread of the lattice evaluator meets are those
    that the tiled evaluator meets, in another order. *)
Lemma neighbours_perm (lat : Lattice) p :
  built n (fun i => cube_of X.[i]) lat ->
  (forall p j, p < n -> j < 27 ->
     (0 <= (d_cube_id lat).[p] + d_moore_nhood.[j] < N_CUBES)%Z) ->
  p < n ->
  Permutation (neighbours X (d_cell_id lat).[p] (candidates lat p))
              (neighbours X (d_cell_id lat).[p] (seq 0 n)).
Proof.
  intros B C Hp. unfold neighbours.
  apply NoDup_Permutation.
  - apply NoDup_filter. now apply (candidates_NoDup n lat _ B C).
  - apply NoDup_filter, seq_NoDup.
  - intros x. rewrite !filter_In, in_seq. split.
    + intros [Hx Cx]. split; [|exact Cx].
      pose proof (candidates_live n lat _ B C p x Hp Hx). lia.
    + intros [Hx Cx]. split; [|exact Cx].
      destruct (cell_id_onto n lat _ B x) as (q & Hq & <-); [lia|].
      destruct (close_cubes X _ _ Cx) as (m & Hm & Em).
      apply (candidates_complete n lat _ B C p q m); auto.
      pose proof B as (_ & _ & _ & _ & _ & KV & _).
      rewrite !KV by assumption. exact Em.
Qed.

End ExactLattice.


Lemma Example_X2r_interior (i : nat) : i < 2 -> interior Example.X2r.[i].
Proof.
  intros Hi.
  assert (Z0 : Zfloor 0 = 0%Z) by apply (ZfloorZ 0).
  assert (Z1 : Zfloor (3 / 5) = 0%Z) by (apply Zfloor_eq; simpl; lra).
  destruct i as [|[|i]]; try lia;
    repeat split; apply interior_coordinate_exact; cbn [rd nth Example.X2r px py pz];
    rewrite ?Z0, ?Z1; vm_compute; split; congruence.
Qed.

Lemma Example_short_range (Xi r : Pt R) (d : R) (i j : nat) :
  (1 <= d)%R -> Example.short_range_r Xi r d i j = pt_zero 0.
Proof.
  intros H. unfold Example.short_range_r, Exact.ltb.
  destruct (Rlt_dec d 1); [lra | reflexivity].
Qed.


(** ** The neighbour relation *)

Lemma exact_dist_sym (X : list (Pt R)) i j : dist X j i = dist X i j.
Proof.
  unfold dist. cbn [norm3df exact pt_sub px py pz fsub]. unfold Exact.norm3.
  f_equal. ring.
Qed.

Lemma exact_dist_self (X : list (Pt R)) i : dist X i i = 0%R.
Proof.
  unfold dist. cbn [norm3df exact pt_sub px py pz fsub]. unfold Exact.norm3.
  replace (_ + _)%R with 0%R by ring. apply sqrt_0.
Qed.

Lemma exact_close_self (X : list (Pt R)) i : close X i i = true.
Proof. apply exact_close. rewrite exact_dist_self. lra. Qed.


Lemma Example_X2r_close : (dist Example.X2r 0 1 < 1)%R.
Proof.
  unfold dist. cbn [norm3df exact pt_sub px py pz fsub rd nth Example.X2r].
  unfold Exact.norm3.
  match goal with
  | |- (sqrt ?x < 1)%R =>
      assert (H : (sqrt x < sqrt 1)%R) by (apply sqrt_lt_1_alt; lra)
  end.
  now rewrite sqrt_1 in H.
Qed.


Lemma lone_neighbours (X : list (Pt R)) (n i : nat) :
  i < n -> (forall j, j < n -> j <> i -> (1 <= dist X i j)%R) ->
  neighbours X i (seq 0 n) = [i].
Proof.
  intros Hi Hfar. apply Permutation_length_1_inv.
  apply NoDup_Permutation.
  - repeat constructor. simpl. tauto.
  - apply NoDup_filter, seq_NoDup.
  - intros x. unfold neighbours. rewrite filter_In, in_seq. simpl. split.
    + intros [<-|[]]. split; [lia | apply exact_close_self].
    + intros [Hx Cx]. left. destruct (Nat.eq_dec x i) as [->|Hne]; [reflexivity|].
      apply exact_close in Cx.
      assert (Hx' : x < n) by lia. pose proof (Hfar x Hx' Hne). lra.
Qed.

(** With a single neighbour, itself, a point receives its own previous
    velocity from [add_rhs]. *)
Lemma lone_diffusion (n : nat) (old_v sum_v : list (float3 R)) (nNBs : list Z)
    (dX : list (Pt R)) (i : nat) :
  i < n -> n <= length dX ->
  sum_v.[i] = fold_left (fun s k => f3_add s old_v.[k]) [i] f3_zero ->
  nNBs.[i] = Z.of_nat (length [i]) ->
  (launch (blocks n) 32
     (fun blockIdx threadIdx => add_rhs n sum_v nNBs (blockIdx * 32 + threadIdx))
     dX).[i]
  = mkPt (px dX.[i] + vx old_v.[i])%R (py dX.[i] + vy old_v.[i])%R
         (pz dX.[i] + vz old_v.[i])%R (aux dX.[i]).
Proof.
  intros Hi Hn Es En.
  destruct (add_rhs_launch n sum_v nNBs dX Hn) as [_ E]. rewrite E.
  replace (i <? n) with true by (symmetry; now apply Nat.ltb_lt).
  unfold diffused. rewrite Es, En.
  cbn [fold_left f3_add f3_zero vx vy vz fadd fdiv fzero of_int exact length Z.of_nat
       Pos.of_succ_nat].
  f_equal; field.
Qed.



(** *** The self-pair in binary32 *)

(** A finite binary32 value minus itself is +0, so a point with finite
    coordinates is at distance +0 from itself and passes [dist < 1]; a
    point with a NaN coordinate does not. *)
Lemma binary32_sub_self (a : spec_float) :
  Binary32.is_finite a = true -> Binary32.sub a a = S754_zero false.
Proof.
  destruct a as [[|]|[|]| |s m e]; try discriminate; intros _; try reflexivity.
  unfold Binary32.sub, SFsub. cbv zeta. now rewrite Z.sub_diag.
Qed.

Lemma binary32_self_close (X : list (Pt spec_float)) (i : nat) :
  Binary32.is_finite (px X.[i]) = true ->
  Binary32.is_finite (py X.[i]) = true ->
  Binary32.is_finite (pz X.[i]) = true ->
  close X i i = true.
Proof.
  intros Hx Hy Hz. unfold close, dist.
  cbn [pt_sub px py pz fsub norm3df fltb of_int binary32].
  rewrite !binary32_sub_self by assumption. reflexivity.
Qed.

Lemma binary32_nan_not_close (X : list (Pt spec_float)) (i j : nat) :
  px X.[i] = S754_nan -> close X i j = false.
Proof.
  intros Hx. unfold close, dist.
  cbn [pt_sub px py pz fsub norm3df fltb of_int binary32]. rewrite Hx.
  reflexivity.
Qed.

(** *** The two evaluators on three bolls in binary32 *)

(** With an interaction of range 1 the two evaluators leave the same three
    buffers; with the repulsion that is not cut off, the boll at x = 5
    still feels the other two in [compute_tiles] and no longer does in the
    lattice. *)
Example evaluators_agree_on_three_bolls :
  lattice_pwints 0 Example.short_range insertion_sort_by_key 3 Example.X3
    Example.zeros3 Example.old_v3 Example.sum_v3 [0; 0; 0]%Z Example.lat3
  = Some (compute_tiles 0 Example.short_range 3 Example.X3 Example.zeros3
            Example.old_v3 Example.sum_v3 [0; 0; 0]%Z Example.sh32).
Proof. vm_compute. reflexivity. Qed.

Example long_range_is_cut_by_the_lattice :
  lattice_pwints 0 Example.push insertion_sort_by_key 3 Example.X3
    Example.zeros3 Example.old_v3 Example.sum_v3 [0; 0; 0]%Z Example.lat3
  <> Some (compute_tiles 0 Example.push 3 Example.X3 Example.zeros3
             Example.old_v3 Example.sum_v3 [0; 0; 0]%Z Example.sh32).
Proof. vm_compute. discriminate. Qed.
